(** * Quad: the block/grid matching engine and the score state machine

    A shallow embedding of [src/js/app/block.js] and [src/js/app/score.js].

    - Blocks are JavaScript objects with identity: the grid stores
      _references_ to them and [slide] mutates a block that the grid
      may still point to.  The embedding therefore has an object store
      ([heap]) indexed by references, and the grid holds references.
    - [grid.contents] is an array of rows, each row an array of block
      references.  A JavaScript array is an object: [row[x]] reads the
      property [x] for any integer [x] ([undefined] when absent) and
      [row[x] = v] creates or overwrites it.  A row is a finite map from
      integers to references; [grid.contents] itself is only read by
      [block.js], so it is a list of rows.  Reading [grid.contents[y]]
      outside the list gives [undefined], and indexing [undefined]
      raises a [TypeError].
    - Exceptions and the mutation that happened before them are kept:
      every computation ends in a [result] carrying the final world. *)

From Stdlib Require Import ZArith List String Ascii Lia.
From stdpp Require Import base option list gmap strings pretty.

Open Scope Z_scope.

(** ** JavaScript values used by the engine *)

(** Object identity of a block. *)
Definition ref := nat.

(** A coordinate object [{x: .., y: ..}]. *)
Record Coord := mkCoord { cx : Z; cy : Z }.

#[global] Instance Coord_eq_dec : EqDecision Coord.
Proof. solve_decision. Defined.

Inductive error :=
  | TypeError                 (* property access on [undefined] *)
  | Thrown (msg : string).    (* [throw(msg)] *)

(** [arr[i]] on a JavaScript array held as a list: [undefined] ([None])
    for a negative or too large index. *)
Definition js_index {A} (l : list A) (i : Z) : option A :=
  if decide (0 ≤ i) then l !! Z.to_nat i else None.

(** ** Configuration ([app/config], not part of the sources: a parameter) *)

Record Config := mkConfig {
  color_unbreakable : Z;            (* config.color.unbreakable *)
  color_available : list (list Z);  (* config.color.available: palette per level *)
  points : list nat;                (* config.points: exponent per level *)
  checkpoints : list Z              (* config.checkpoints *)
}.

(** ** Blocks *)

Module Block.

Record t := mk {
  direction : string;
  position : Z;
  offset : Z;
  color : Z;
  visible : bool;
  manualPosition : bool;
  falling : bool;
  coord : option Coord       (* [undefined] until the block is dropped *)
}.

Definition set_color (v : Z) (b : t) : t :=
  mk (direction b) (position b) (offset b) v (visible b)
     (manualPosition b) (falling b) (coord b).
Definition set_visible (v : bool) (b : t) : t :=
  mk (direction b) (position b) (offset b) (color b) v
     (manualPosition b) (falling b) (coord b).
Definition set_manualPosition (v : bool) (b : t) : t :=
  mk (direction b) (position b) (offset b) (color b) (visible b)
     v (falling b) (coord b).
Definition set_falling (v : bool) (b : t) : t :=
  mk (direction b) (position b) (offset b) (color b) (visible b)
     (manualPosition b) v (coord b).
Definition set_coord (v : option Coord) (b : t) : t :=
  mk (direction b) (position b) (offset b) (color b) (visible b)
     (manualPosition b) (falling b) v.

(** What the rendering collaborator is asked to do. *)
Inductive Effect :=
  | Draw (r : ref) (col : Z)          (* display: fill a cell-sized rectangle *)
  | TweenDrop (r : ref) (c : Coord)   (* drop: animate towards [c] *)
  | TweenShrink (r : ref).            (* destroy: shrink-out animation *)

(** The world a block operation runs in. *)
Record World := mkWorld {
  heap : ref → t;                 (* the block objects *)
  next : ref;                     (* next unused reference *)
  contents : list (gmap Z ref);   (* grid.contents[y][x] *)
  effects : list Effect           (* rendering calls so far, oldest first *)
}.

Definition set_heap (h : ref → t) (w : World) : World :=
  mkWorld h (next w) (contents w) (effects w).
Definition set_contents (g : list (gmap Z ref)) (w : World) : World :=
  mkWorld (heap w) (next w) g (effects w).
Definition emit (e : Effect) (w : World) : World :=
  mkWorld (heap w) (next w) (contents w) (effects w ++ [e]).

(** [this.f = v] on the object [r]. *)
Definition update (r : ref) (f : t → t) (w : World) : World :=
  set_heap (λ r', if decide (r' = r) then f (heap w r) else heap w r') w.

(** How a call ends.  [OutOfFuel] belongs to the embedding only: the
    recursion of [eraseBlocks] is bounded by a counter, and [clear]
    supplies a bound that is never reached ([clear_terminates]). *)
Inductive result (A : Type) :=
  | Ret (a : A) (w : World)
  | Throw (e : error) (w : World)
  | OutOfFuel (w : World).
Arguments Ret {A} a w.
Arguments Throw {A} e w.
Arguments OutOfFuel {A} w.

Definition world_of {A} (r : result A) : World :=
  match r with Ret _ w | Throw _ w | OutOfFuel w => w end.

(** State and exception monad. *)
Definition M (A : Type) : Type := World → result A.

#[global] Instance M_ret : MRet M := λ A a w, Ret a w.
#[global] Instance M_bind : MBind M := λ A B k m w,
  match m w with
  | Ret a w' => k a w'
  | Throw e w' => Throw e w'
  | OutOfFuel w' => OutOfFuel w'
  end.

Definition throw {A} (e : error) : M A := λ w, Throw e w.
Definition out_of_fuel {A} : M A := λ w, OutOfFuel w.
Definition get : M World := λ w, Ret w w.
Definition modify (f : World → World) : M unit := λ w, Ret tt (f w).

(** [block.coord], to be dereferenced: a [TypeError] when [undefined]. *)
Definition get_coord (r : ref) : M Coord := λ w,
  match coord (heap w r) with
  | Some c => Ret c w
  | None => Throw TypeError w
  end.

(** The occupant of a cell, [None] when the row does not exist or the
    cell is empty (used to state properties). *)
Definition cell (g : list (gmap Z ref)) (c : Coord) : option ref :=
  row ← js_index g (cy c); row !! cx c.

(** [grid.contents[y][x]] as an expression. *)
Definition read (x y : Z) : M (option ref) := λ w,
  match js_index (contents w) y with
  | Some row => Ret (row !! x) w
  | None => Throw TypeError w
  end.

(** [grid.contents[y][x] = v]. *)
Definition write (x y : Z) (v : option ref) : M unit := λ w,
  match js_index (contents w) y with
  | Some row =>
      let row' := match v with
                  | Some r => <[x := r]> row
                  | None => delete x row
                  end in
      Ret tt (set_contents (<[Z.to_nat y := row']> (contents w)) w)
  | None => Throw TypeError w
  end.

Section WithConfig.
Variable config : Config.

(** [new Block(game, direction, position, offset, color)]; the colour
    argument is an optional number. [color || config.color.unbreakable]
    takes the default for [undefined] and for the falsy number 0. *)
Definition truthy (v : option Z) : bool :=
  match v with
  | Some n => negb (n =? 0)
  | None => false
  end.

Definition new_fields (direction : string) (position offset : Z)
    (color : option Z) : t :=
  {| direction := direction;
     position := position;
     offset := offset + 3;
     color := if truthy color then default 0 color
              else color_unbreakable config;
     visible := false;
     manualPosition := false;
     falling := false;
     coord := None |}.

Definition new (direction : string) (position offset : Z)
    (color : option Z) : M ref := λ w,
  let r := next w in
  Ret r (mkWorld (λ r', if decide (r' = r)
                        then new_fields direction position offset color
                        else heap w r')
                 (S r) (contents w) (effects w)).

(** [Block.prototype.display]: only the logical part and the draw call. *)
Definition display (this : ref) : M unit :=
  w ← get;
  modify (emit (Draw this (color (heap w this))));;
  modify (update this (set_visible true));;
  modify (update this (set_falling false)).

(** [Block.prototype.unbreakable] *)
Definition unbreakable (this : ref) : M unit :=
  modify (update this (set_color (color_unbreakable config)));;
  w ← get;
  if visible (heap w this) then display this else mret tt.

End WithConfig.

(** [Block.prototype.drop] with the coordinate supplied by the caller
    ([grid.getFirstAvailable] is not part of the sources).  The part
    that runs synchronously: the grid is written first, the tween is
    only started. *)
Definition drop (this : ref) (c : Coord) (noAnimate : bool) : M unit :=
  write (cx c) (cy c) (Some this);;
  w ← get;
  (if negb noAnimate && visible (heap w this)
   then modify (update this (set_falling true));;
        modify (emit (TweenDrop this c))
   else mret tt);;
  modify (update this (set_coord (Some c))).

(** [Block.prototype.positionAt] *)
Definition positionAt (this : ref) (c : Coord) : M unit :=
  modify (update this (set_manualPosition true));;
  drop this c true;;
  w ← get;
  if visible (heap w this) then display this else mret tt.

(** [Block.prototype.destroy] *)
Definition destroy (this : ref) : M unit :=
  modify (emit (TweenShrink this));;
  c ← get_coord this;
  write (cx c) (cy c) None.

(** [matchingColor] inside [clear]: [block && (block.color == this.color)] *)
Definition matchingColor (w : World) (this : ref) (block : option ref) : bool :=
  match block with
  | Some b => bool_decide (color (heap w b) = color (heap w this))
  | None => false
  end.

(** [checkForClear(coord)]: the conjunction is evaluated left to right
    and stops at the first cell that does not match. *)
Definition checkForClear (this : ref) (c : Coord) : M bool :=
  w ← get;
  a ← read (cx c) (cy c);
  if negb (matchingColor w this a) then mret false else
  b ← read (cx c) (cy c + 1);
  if negb (matchingColor w this b) then mret false else
  d ← read (cx c + 1) (cy c);
  if negb (matchingColor w this d) then mret false else
  e ← read (cx c + 1) (cy c + 1);
  mret (matchingColor w this e).

(** The value of [doClear]; [||] stops at the first square that forms. *)
Definition doClear (this : ref) : M bool :=
  c ← get_coord this;
  s1 ← checkForClear this (mkCoord (cx c) (cy c));
  if (s1 : bool) then mret true else
  s2 ← checkForClear this (mkCoord (cx c - 1) (cy c));
  if (s2 : bool) then mret true else
  s3 ← checkForClear this (mkCoord (cx c) (cy c - 1));
  if (s3 : bool) then mret true else
  checkForClear this (mkCoord (cx c - 1) (cy c - 1)).

(** One neighbour test of [eraseBlocks]:
    [if (matchingColor(grid.contents[y][x])) eraseBlocks(grid.contents[y][x])].
    The cell expression is evaluated once: its second evaluation in the
    source, as the argument of the call, reads the same cell with
    nothing in between. *)
Definition visit (erase : ref → list ref → M (list ref)) (this : ref)
    (x y : Z) (destroyed : list ref) : M (list ref) :=
  n ← read x y;
  w ← get;
  match n with
  | Some b =>
      if matchingColor w this (Some b) then erase b destroyed
      else mret destroyed
  | None => mret destroyed
  end.

(** The neighbour of [block] at offset [(dx, dy)]: [block.coord] is read
    again for each of them. *)
Definition neighbour (erase : ref → list ref → M (list ref))
    (this block : ref) (dx dy : Z) (destroyed : list ref) : M (list ref) :=
  c ← get_coord block;
  visit erase this (cx c + dx) (cy c + dy) destroyed.

(** [eraseBlocks(block)] with the local array [destroyed] passed along. *)
Fixpoint eraseBlocks (fuel : nat) (this block : ref) (destroyed : list ref)
    : M (list ref) :=
  match fuel with
  | O => out_of_fuel
  | S fuel =>
      if decide (block ∈ destroyed) then mret destroyed else
      destroy block;;
      let destroyed := destroyed ++ [block] in
      let erase := eraseBlocks fuel this in
      destroyed ← neighbour erase this block 0 1 destroyed;      (* below *)
      destroyed ← neighbour erase this block 0 (-1) destroyed;   (* above *)
      destroyed ← neighbour erase this block 1 0 destroyed;      (* right *)
      neighbour erase this block (-1) 0 destroyed                (* left *)
  end.

(** Every block the grid references, row by row. *)
Definition grid_refs (g : list (gmap Z ref)) : list ref :=
  mjoin ((λ row : gmap Z ref, snd <$> map_to_list row) <$> g).

(** A bound on the depth of [eraseBlocks]: each nested call adds a new
    block to [destroyed], and only blocks of the grid (or [this]) are
    ever visited. *)
Definition enough_fuel (w : World) : nat :=
  S (S (length (grid_refs (contents w)))).

(** [Block.prototype.clear] *)
Definition clear (this : ref) : M unit :=
  go ← doClear this;
  if (go : bool)
  then w ← get; eraseBlocks (enough_fuel w) this this [];; mret tt
  else mret tt.

(** Completion of the drop tween: [falling] is reset and the callbacks of
    [onDropComplete] run; the constructor installs [clear] as the only one. *)
Definition dropComplete (this : ref) : M unit :=
  modify (update this (set_falling false));;
  clear this.

(** A grid of [h] empty rows and no blocks, to build examples from. *)
Definition no_block : t :=
  mk "" 0 0 0 false false false None.
Definition empty_world (h : nat) : World :=
  mkWorld (λ _, no_block) 0%nat (replicate h ∅) [].

(** [Block.prototype.slide]: the coordinate is changed in place; the
    move of the graphics by one cell size is left out.  [toLowerCase]
    acts on the ASCII letters. *)
Definition to_lower (c : ascii) : ascii :=
  let n := nat_of_ascii c in
  if ((65 <=? n) && (n <=? 90))%nat then ascii_of_nat (n + 32) else c.

Fixpoint toLowerCase (s : string) : string :=
  match s with
  | EmptyString => EmptyString
  | String c s => String (to_lower c) (toLowerCase s)
  end.

Definition move (dx dy : Z) (c : Coord) : Coord :=
  mkCoord (cx c + dx) (cy c + dy).

Definition slide (this : ref) (direction : string) : M unit :=
  let step (dx dy : Z) : M unit :=
    c ← get_coord this;
    modify (update this (set_coord (Some (move dx dy c)))) in
  let d := toLowerCase direction in
  if String.eqb d "top" then step 0 (-1)
  else if String.eqb d "bottom" then step 0 1
  else if String.eqb d "left" then step (-1) 0
  else if String.eqb d "right" then step 1 0
  else throw (Thrown ("Invalid argument to Block.slide: " ++ direction)).

(** A direction and the direction that undoes it. *)
Definition opposites : list (string * string) :=
  [("top", "bottom"); ("bottom", "top"); ("left", "right"); ("right", "left")].

(** The four direction names of the specification. *)
Definition directions : list string := ["top"; "bottom"; "left"; "right"].

End Block.

(** ** Properties of a grid used in the statements about [clear] *)

Module Grid.
Import Block.

(** The occupant of the cell [c] in the world [w]. *)
Definition occupant (w : World) (c : Coord) : option ref :=
  cell (contents w) c.

(** The row [y] exists: [grid.contents[y]] is an array. *)
Definition has_row (w : World) (y : Z) : Prop :=
  0 ≤ y < Z.of_nat (length (contents w)).

(** Every slot that holds a block has that block's own coordinate as
    its key. *)
Definition consistent (w : World) : Prop :=
  ∀ c r, occupant w c = Some r → coord (heap w r) = Some c.

(** The block [r] is placed: the slot at its coordinate holds it. *)
Definition placed (w : World) (r : ref) : Prop :=
  ∃ c, coord (heap w r) = Some c ∧ occupant w c = Some r.

(** The cell [c] is occupied by a block with the colour of [this]. *)
Definition matching (w : World) (this : ref) (c : Coord) : Prop :=
  ∃ r, occupant w c = Some r ∧ color (heap w r) = color (heap w this).

Definition matchingb (w : World) (this : ref) (c : Coord) : bool :=
  matchingColor w this (occupant w c).

(** The 2x2 square whose corner with the smallest coordinates is [c]
    has all four cells matching. *)
Definition square (w : World) (this : ref) (c : Coord) : bool :=
  matchingb w this c && matchingb w this (move 0 1 c) &&
  matchingb w this (move 1 0 c) && matchingb w this (move 1 1 c).

(** One of the four squares that have [c] as a corner is formed. *)
Definition any_square (w : World) (this : ref) (c : Coord) : bool :=
  square w this c || square w this (move (-1) 0 c) ||
  square w this (move 0 (-1) c) || square w this (move (-1) (-1) c).

(** Up, down, left, right; no diagonals. *)
Definition adjacent (c c' : Coord) : Prop :=
  c' = move 0 1 c ∨ c' = move 0 (-1) c ∨ c' = move 1 0 c ∨ c' = move (-1) 0 c.

(** [reach w this c c']: from the cell [c] one gets to [c'] through
    adjacent cells that all match the colour of [this]. *)
Inductive reach (w : World) (this : ref) (c : Coord) : Coord → Prop :=
  | reach_refl : reach w this c c
  | reach_step c1 c2 :
      reach w this c c1 → adjacent c1 c2 → matching w this c2 →
      reach w this c c2.


(** The blocks on which [destroy] ran, in order, read off the effects. *)
Definition destroyed_of (es : list Effect) : list ref :=
  omap (λ e, match e with TweenShrink r => Some r | _ => None end) es.

(** The block [r] has the colour of [this]. *)
Definition same_color (w : World) (this r : ref) : Prop :=
  color (heap w r) = color (heap w this).

(** The grid references the block [r]. *)
Definition in_grid (w : World) (r : ref) : Prop :=
  ∃ c, occupant w c = Some r.

(** What [eraseBlocks] goes on to: a block of the grid with the colour
    of [this]. *)
Definition target (w : World) (this r : ref) : Prop :=
  same_color w this r ∧ in_grid w r.

(** [erased P w w']: the world [w'] is [w] after [destroy] ran on a list
    of blocks that all satisfy [P]; no block changed, and a cell either
    kept its occupant or is empty and was the coordinate of one of
    those blocks. *)
Definition erased (P : ref → Prop) (w w' : World) : Prop :=
  heap w' = heap w ∧ next w' = next w ∧
  length (contents w') = length (contents w) ∧
  ∃ l, effects w' = effects w ++ (TweenShrink <$> l) ∧ Forall P l ∧
       ∀ c, occupant w' c = occupant w c ∨
            (occupant w' c = None ∧
             ∃ r, r ∈ l ∧ coord (heap w r) = Some c).

(** The recursion stayed within its bound; when it returned, the list of
    destroyed blocks is duplicate free, inside [U] and not shorter
    than it was. *)
Definition terminated (U D : list ref) (res : result (list ref)) : Prop :=
  match res with
  | Ret D' _ => NoDup D' ∧ D' ⊆ U ∧ (length D ≤ length D')%nat
  | Throw _ _ => True
  | OutOfFuel _ => False
  end.

(** The occupant of [c] once the blocks of [l] are taken out of [w]. *)
Definition without (w : World) (l : list ref) (c : Coord) : option ref :=
  match occupant w c with
  | Some r => if decide (r ∈ l) then None else Some r
  | None => None
  end.

(** Every cell reached from [c0] has a row above and a row below. *)
Definition interior (w : World) (this : ref) (c0 : Coord) : Prop :=
  ∀ c, reach w this c0 c → has_row w (cy c - 1) ∧ has_row w (cy c + 1).

(** The four cells next to [c], in the order [eraseBlocks] looks at them. *)
Definition neighbours (c : Coord) : list Coord :=
  [move (-1) 0 c; move 1 0 c; move 0 (-1) c; move 0 1 c].

(** Where [eraseBlocks(b)], called in the world [w0] with [b] at [cb],
    stands once it has looked at the cells [visited] next to [cb]: the
    blocks [l] are destroyed and out of the grid, each of them was
    reached from [cb], and every matching neighbour of a block of [l]
    is in [l] too, except for the cells next to [cb] that are still to
    be looked at. *)
Definition visiting (w0 : World) (this b : ref) (cb : Coord)
    (visited : list Coord) (w : World) (l : list ref) : Prop :=
  heap w = heap w0 ∧
  length (contents w) = length (contents w0) ∧
  effects w = effects w0 ++ (TweenShrink <$> l) ∧
  NoDup l ∧ b ∈ l ∧
  (∀ r, r ∈ l → ∃ c, occupant w0 c = Some r ∧ reach w0 this cb c) ∧
  (∀ c, occupant w c = without w0 l c) ∧
  (∀ c r c' r',
     occupant w0 c = Some r → r ∈ l → (r = b → c' ∈ visited) →
     adjacent c c' → occupant w0 c' = Some r' → same_color w0 this r' →
     r' ∈ l).

(** What [eraseBlocks(b)] may assume when it is called in a consistent
    grid with [b] at [cb]. *)
Definition erase_pre (w : World) (this b : ref) (cb : Coord)
    (D : list ref) : Prop :=
  consistent w ∧ occupant w cb = Some b ∧ same_color w this b ∧
  (∀ r, r ∈ D → ¬ in_grid w r) ∧ interior w this cb.

(** What a step then delivers, unless the bound of the embedding
    stopped it: it returned, it did not throw. *)
Definition visit_post (w : World) (this b : ref) (cb : Coord)
    (D : list ref) (visited : list Coord) (res : result (list ref)) : Prop :=
  match res with
  | Ret D' w' => ∃ l, D' = D ++ l ∧ visiting w this b cb visited w' l
  | Throw _ _ => False
  | OutOfFuel _ => True
  end.

Definition erase_post (w : World) (this b : ref) (cb : Coord)
    (D : list ref) (res : result (list ref)) : Prop :=
  visit_post w this b cb D (neighbours cb) res.

(** Every reference in the grid was made by [new]. *)
Definition allocated (w : World) : Prop :=
  ∀ c r, occupant w c = Some r → (r < next w)%nat.

(** The operations on placed blocks, as a game issues them one after
    the other; [Landed] is the completion of a drop tween. *)
Inductive op :=
  | Drop (r : ref) (c : Coord) (noAnimate : bool)
  | Landed (r : ref)
  | Slide (r : ref) (direction : string)
  | Clear (r : ref)
  | Destroy (r : ref).

Definition run_op (o : op) : M unit :=
  match o with
  | Drop r c noAnimate => drop r c noAnimate
  | Landed r => dropComplete r
  | Slide r d => slide r d
  | Clear r => clear r
  | Destroy r => destroy r
  end.

(** The worlds after each operation of a sequence; an operation that
    throws leaves the world it had reached. *)
Fixpoint run (ops : list op) (w : World) : list World :=
  match ops with
  | [] => []
  | o :: ops => let w' := world_of (run_op o w) in w' :: run ops w'
  end.

(** An operation that keeps the grid and the blocks in step: anything
    but [slide], a drop being the drop of a block that the grid does
    not reference yet. *)
Definition in_step (w : World) (o : op) : Prop :=
  match o with
  | Drop r _ _ => ¬ in_grid w r
  | Slide _ _ => False
  | _ => True
  end.

Fixpoint all_in_step (w : World) (ops : list op) : Prop :=
  match ops with
  | [] => True
  | o :: ops => in_step w o ∧ all_in_step (world_of (run_op o w)) ops
  end.

(** [m] only reads: it returns or throws in the world it started in. *)
Definition pure {A} (m : M A) : Prop :=
  ∀ w, (∃ a, m w = Ret a w) ∨ (∃ e, m w = Throw e w).


End Grid.

(** ** The score and level state machine *)

Module Score.

(** The numbers [score.js] computes with: integers and [NaN] (from a
    missing table entry). *)
Inductive num := Int (z : Z) | NaN.

Definition add (a b : num) : num :=
  match a, b with
  | Int x, Int y => Int (x + y)
  | _, _ => NaN
  end.

(** [a >= b]: false when [a] is [NaN]. *)
Definition geb (a : num) (b : Z) : bool :=
  match a with
  | Int x => b <=? x
  | NaN => false
  end.

(** Number to string, as [+] does when concatenating. *)
Definition show (a : num) : string :=
  match a with
  | Int x => pretty x
  | NaN => "NaN"
  end.

(** [Math.pow(clearCount, e)] for a count and a table entry [e], which
    is a natural number or [undefined]. *)
Definition Math_pow (clearCount : N) (e : option nat) : num :=
  match e with
  | Some e => Int (Z.of_N clearCount ^ Z.of_nat e)
  | None => NaN
  end.

(** [Math.floor]: integers and [NaN] are their own floor. *)
Definition Math_floor (n : num) : num := n.

(** Calls to the collaborators (generator, music, background, grid). *)
Inductive Call :=
  | SetLevel (l : nat)                   (* generator.setLevel(level) *)
  | MusicPlay (track : string)           (* music.play(track) *)
  | BackgroundNewColor (c : option Z)    (* background.newColor(colour) *)
  | CenterBreakable                      (* generator.centerQuad.breakable() *)
  | GridClearAll                         (* grid.clearAll() *)
  | GridResetMiddle                      (* grid.resetMiddle() *)
  | CenterRedraw                         (* centerQuad.redraw() *)
  | CenterToCenter                       (*   .toCenter() *)
  | CenterUnbreakable.                   (*   .unbreakable() *)

(** The [Score] object once [init] has run; [board] is [this.board.text]. *)
Record t := mk {
  board : string;
  current : num;
  level : nat;
  calls : list Call      (* calls made so far, oldest first *)
}.

Definition newline : string := String (ascii_of_nat 10) EmptyString.

Definition init : t :=
  mk ("Level: 1" ++ newline ++ "Score: 0") (Int 0) 0%nat [].

Definition set_board (v : string) (s : t) : t :=
  mk v (current s) (level s) (calls s).
Definition set_current (v : num) (s : t) : t :=
  mk (board s) v (level s) (calls s).
Definition set_level (v : nat) (s : t) : t :=
  mk (board s) (current s) v (calls s).
Definition call (c : Call) (s : t) : t :=
  mk (board s) (current s) (level s) (calls s ++ [c]).

Inductive outcome :=
  | Done (s : t)
  | Failed (e : error) (s : t).

Definition state_of (o : outcome) : t :=
  match o with Done s | Failed _ s => s end.

Section WithConfig.
Variable config : Config.

(** The loop of [calcLevel]: indices [i-1], [i-2], ..., 0. *)
Fixpoint scan (i : nat) (cur : num) : option nat :=
  match i with
  | O => None
  | S j =>
      match checkpoints config !! j with
      | Some cp => if geb cur cp then Some (S j) else scan j cur
      | None => scan j cur
      end
  end.

(** [Score.prototype.calcLevel] *)
Definition calcLevel (s : t) : nat :=
  default (level s) (scan (length (checkpoints config)) (current s)).

(** [Score.prototype.newLevel]. [config.color.available[level][0]]
    raises a [TypeError] when there is no palette for the level. *)
Definition newLevel (s : t) : outcome :=
  let s := call (SetLevel (level s)) s in
  let s := call (MusicPlay ("background" ++ pretty (level s + 1)%nat)) s in
  match color_available config !! level s with
  | None => Failed TypeError s
  | Some palette =>
      let s := call (BackgroundNewColor (palette !! 0%nat)) s in
      let s := call CenterBreakable s in
      let s := call GridClearAll s in
      let s := call GridResetMiddle s in
      let s := call CenterRedraw s in
      let s := call CenterToCenter s in
      let s := call CenterUnbreakable s in
      Done s
  end.

(** [Score.prototype.update] *)
Definition update (clearCount : N) (s : t) : outcome :=
  let points := Math_pow clearCount (points config !! level s) in
  let levelDisplay := (level s + 1)%nat in
  let s := set_current (add (current s) (Math_floor points)) s in
  let s := set_board ("Level: " ++ pretty levelDisplay ++ newline ++
                      "Score: " ++ show (current s)) s in
  let newLevel' := calcLevel s in
  if (level s <? newLevel')%nat
  then newLevel (set_level newLevel' s)
  else Done s.

(** The checkpoints are in ascending order. *)
Definition ascending (cps : list Z) : Prop :=
  ∀ i j a b, (i < j)%nat → cps !! i = Some a → cps !! j = Some b → a ≤ b.


(** No transition is pending. *)
Definition settled (s : t) : Prop := (calcLevel s ≤ level s)%nat.

(** The states a game can be in: [init] and whatever [update] leaves,
    also when the transition failed half-way. *)
Inductive reachable : t → Prop :=
  | reachable_init : reachable init
  | reachable_update s c :
      reachable s → reachable (state_of (update c s)).


(** One [update] after the other, with the given clear counts. *)
Definition updates (cs : list N) (s : t) : t :=
  foldl (λ s c, state_of (update c s)) s cs.

(** The configuration has an exponent for every level from 0 to the
    number of checkpoints and a palette for every level from 1 on. *)
Definition complete : Prop :=
  (length (checkpoints config) < length (points config))%nat ∧
  ∀ l, (1 ≤ l ≤ length (checkpoints config))%nat →
       is_Some (color_available config !! l).

(** The calls of one level transition to [l], in order. *)
Definition transition (l : nat) (palette : list Z) : list Call :=
  [ SetLevel l;
    MusicPlay ("background" ++ pretty (l + 1)%nat);
    BackgroundNewColor (palette !! 0%nat);
    CenterBreakable; GridClearAll; GridResetMiddle;
    CenterRedraw; CenterToCenter; CenterUnbreakable ].

End WithConfig.

End Score.

(** ** The controls ([app/controls]): one keyboard poll per frame *)

Module Controls.

Inductive Key := LEFT | RIGHT | W | S | A | D | SPACEBAR.

(** The callbacks given to [setTimeout], which reset a gate. *)
Inductive Timer := ResetRotating | ResetShifting.

(** Calls to the collaborators, and to [controls.postMove]. *)
Inductive Call :=
  | HighlightPath     (* generator.highlightPath() *)
  | RotateCCW         (* generator.rotateCCW() *)
  | RotateCW          (* generator.rotateCW() *)
  | SlideUp           (* grid.slideUp() *)
  | SlideDown         (* grid.slideDown() *)
  | SlideLeft         (* grid.slideLeft() *)
  | SlideRight        (* grid.slideRight() *)
  | GeneratorDrop     (* generator.drop() *)
  | PostMove.         (* controls.postMove() *)

#[global] Instance Key_eq_dec : EqDecision Key.
Proof. solve_decision. Defined.
#[global] Instance Call_eq_dec : EqDecision Call.
Proof. solve_decision. Defined.
#[global] Instance Timer_eq_dec : EqDecision Timer.
Proof. solve_decision. Defined.

(** The [controls] object, the timeouts that are pending (all are set
    with the same delay, so they run in the order they were set) and the
    calls made so far, oldest first. *)
Record t := mk {
  rotating : bool;
  shifting : bool;
  timers : list Timer;
  calls : list Call
}.

Definition init : t := mk false false [] [].

(** What one call of [update] reads: the keyboard and
    [generator.fallingQuads.length]. *)
Record Input := mkInput {
  isDown : Key → bool;
  fallingQuads : nat
}.

Definition call (c : Call) (s : t) : t :=
  mk (rotating s) (shifting s) (timers s) (calls s ++ [c]).
Definition set_rotating (v : bool) (s : t) : t :=
  mk v (shifting s) (timers s) (calls s).
Definition set_shifting (v : bool) (s : t) : t :=
  mk (rotating s) v (timers s) (calls s).
Definition setTimeout (f : Timer) (s : t) : t :=
  mk (rotating s) (shifting s) (timers s ++ [f]) (calls s).

(** The body of a rotation branch. *)
Definition rotate (op : Call) (s : t) : t :=
  let s := set_rotating true s in
  let s := call op s in
  let s := setTimeout ResetRotating s in
  call PostMove s.

(** The body of a shift branch. *)
Definition shift (op : Call) (s : t) : t :=
  let s := set_shifting true s in
  let s := call op s in
  let s := setTimeout ResetShifting s in
  call PostMove s.

(** [controls.update(game)] *)
Definition update (i : Input) (s : t) : t :=
  let s := call HighlightPath s in
  if negb (rotating s) && isDown i LEFT then rotate RotateCCW s
  else if negb (rotating s) && isDown i RIGHT then rotate RotateCW s
  else if negb (shifting s) && isDown i W && (fallingQuads i =? 0)%nat
       then shift SlideUp s
  else if negb (shifting s) && isDown i S && (fallingQuads i =? 0)%nat
       then shift SlideDown s
  else if negb (shifting s) && isDown i A && (fallingQuads i =? 0)%nat
       then shift SlideLeft s
  else if negb (shifting s) && isDown i D && (fallingQuads i =? 0)%nat
       then shift SlideRight s
  else if isDown i SPACEBAR
       then call PostMove (call GeneratorDrop s)
  else s.

(** The oldest pending timeout runs. *)
Definition fire (s : t) : t :=
  match timers s with
  | [] => s
  | ResetRotating :: ts => mk false (shifting s) ts (calls s)
  | ResetShifting :: ts => mk (rotating s) false ts (calls s)
  end.

(** What happens to the controls: a frame is polled or a timeout runs. *)
Inductive event := Frame (i : Input) | Timeout.

Definition step (e : event) (s : t) : t :=
  match e with
  | Frame i => update i s
  | Timeout => fire s
  end.

Definition run (es : list event) (s : t) : t := foldl (λ s e, step e s) s es.

(** Consecutive frames, with no timeout running in between. *)
Definition frames (inputs : list Input) (s : t) : t :=
  foldl (λ s i, update i s) s inputs.

Definition is_rotation (c : Call) : bool :=
  match c with RotateCCW | RotateCW => true | _ => false end.
Definition is_shift (c : Call) : bool :=
  match c with
  | SlideUp | SlideDown | SlideLeft | SlideRight => true
  | _ => false
  end.

(** The calls made since the state [s0]. *)
Definition since (s0 s : t) : list Call := drop (length (calls s0)) (calls s).

(** The input [i] with the keys [ks] released. *)
Definition released (ks : list Key) (i : Input) : Input :=
  mkInput (λ k, if decide (k ∈ ks) then false else isDown i k)
          (fallingQuads i).

(** Each gate is closed exactly while its timeout is pending, and at
    most one timeout of each kind is pending. *)
Definition gates_timed (s : t) : Prop :=
  (rotating s = true ↔ ResetRotating ∈ timers s) ∧
  (shifting s = true ↔ ResetShifting ∈ timers s) ∧
  NoDup (timers s).

End Controls.

(** ** Example configurations *)

(** The scenario of the specification: checkpoints 100, 300, 600 and
    exponent 1 at the first levels. *)
Definition scenario_config : Config :=
  mkConfig 7 [[1; 2]; [3; 4]; [5]; [6]] [1; 1; 2; 2]%nat [100; 300; 600].

(** The state after [update(50)] and [update(60)]. *)
Definition scenario_state : Score.t :=
  Score.state_of (Score.update scenario_config 60
    (Score.state_of (Score.update scenario_config 50 Score.init))).

(** ** Example grids *)

(** A new block of colour [col] put at [(x, y)] without animation. *)
Definition place (col : option Z) (x y : Z) : Block.M ref :=
  r ← Block.new scenario_config "top" 0 0 col;
  Block.drop r (mkCoord x y) true;;
  mret r.

(** Three rows, one block (reference 0, colour 5) at (1, 1). *)
Definition one_block : Block.World :=
  Block.world_of (place (Some 5) 1 1 (Block.empty_world 3)).



(** Four rows; a 2x2 square of blocks made without a colour, which
    therefore carry the unbreakable colour, on the rows 1 and 2. *)
Definition unbreakable_square : Block.World :=
  Block.world_of
    ((place None 1 1;; place None 2 1;;
      place None 1 2;; place None 2 2) (Block.empty_world 4)).

(** Five rows; an L-shaped region of colour 5: the square on the rows 1
    and 2 (references 0 to 3) and a fifth block at (3,2) (reference 4);
    a block of colour 9 at (3,1) and an unbreakable one at (0,1). *)
Definition l_shape : Block.World :=
  Block.world_of
    ((place (Some 5) 1 1;; place (Some 5) 2 1;;
      place (Some 5) 1 2;; place (Some 5) 2 2;;
      place (Some 5) 3 2;; place (Some 9) 3 1;;
      place None 0 1) (Block.empty_world 5)).


(** A block object that was made and not dropped, in a grid of three
    empty rows. *)
Definition undropped : Block.World :=
  Block.world_of
    (Block.new scenario_config "top" 0 0 (Some 5) (Block.empty_world 3)).

(** A sequence of operations without [slide] on [l_shape]: a new block
    object (reference 7) is dropped at (4, 3) and lands, then [clear]
    runs on the block at (1, 1) and the block of colour 9 is destroyed. *)
Definition l_shape_ops : list Grid.op :=
  [ Grid.Drop 7%nat (mkCoord 4 3) false; Grid.Landed 7%nat;
    Grid.Clear 0%nat; Grid.Destroy 5%nat ].

(** ** Example inputs of the controls *)

(** Space bar and the left arrow held, one piece falling. *)
Definition space_and_left : Controls.Input :=
  Controls.mkInput
    (λ k, match k with
          | Controls.SPACEBAR | Controls.LEFT => true
          | _ => false
          end) 1.

(** The left arrow and W held, nothing falling. *)
Definition left_and_w : Controls.Input :=
  Controls.mkInput
    (λ k, match k with
          | Controls.LEFT | Controls.W => true
          | _ => false
          end) 0.

(** A configuration that stops after level 0: one checkpoint, and
    neither an exponent nor a palette for level 1. *)
Definition short_config : Config := mkConfig 7 [[1]] [1]%nat [10].

(** The state in which [update(10)] leaves the initial state with
    [short_config]. *)
Definition short_state : Score.t :=
  Score.state_of (Score.update short_config 10 Score.init).

(** * Blocks and the grid *)

Section BlockFacts.
Import Block Grid.

(** ** The monad *)

Lemma bind_eq {A B} (m : M A) (k : A → M B) (w : World) :
  (m ≫= k) w =
    match m w with
    | Ret a w' => k a w'
    | Throw e w' => Throw e w'
    | OutOfFuel w' => OutOfFuel w'
    end.
Proof. reflexivity. Qed.

Lemma bind_ret {A B} (m : M A) (k : A → M B) (w w' : World) (a : A) :
  m w = Ret a w' → (m ≫= k) w = k a w'.
Proof. intros H. by rewrite bind_eq, H. Qed.

Lemma get_coord_eq (r : ref) (w : World) (c : Coord) :
  coord (heap w r) = Some c → get_coord r w = Ret c w.
Proof. intros H. unfold get_coord. by rewrite H. Qed.

(** ** Reading and writing cells *)

Lemma js_index_Some {A} (l : list A) (i : Z) (a : A) :
  js_index l i = Some a ↔ 0 ≤ i ∧ l !! Z.to_nat i = Some a.
Proof.
  unfold js_index. case_decide; [|split; [done|tauto]].
  split; [done|by intros [_ ?]].
Qed.

Lemma js_index_is_Some {A} (l : list A) (i : Z) :
  is_Some (js_index l i) ↔ 0 ≤ i < Z.of_nat (length l).
Proof.
  unfold js_index. case_decide.
  - rewrite lookup_lt_is_Some. lia.
  - split; [by intros [? ?]|lia].
Qed.

Lemma has_row_index (w : World) (y : Z) :
  has_row w y → ∃ row, js_index (contents w) y = Some row.
Proof. intros H. by apply js_index_is_Some. Qed.

Lemma read_row (w : World) (x y : Z) :
  has_row w y → read x y w = Ret (occupant w (mkCoord x y)) w.
Proof.
  intros [row Hrow]%has_row_index. unfold read, occupant, cell. simpl.
  by rewrite Hrow.
Qed.

Lemma read_no_row (w : World) (x y : Z) :
  ¬ has_row w y → read x y w = Throw TypeError w.
Proof.
  intros H. unfold read.
  destruct (js_index (contents w) y) eqn:E; [|done].
  destruct H. apply js_index_is_Some. eauto.
Qed.

Lemma occupant_has_row (w : World) (c : Coord) (r : ref) :
  occupant w c = Some r → has_row w (cy c).
Proof.
  unfold occupant, cell. intros H. apply js_index_is_Some.
  destruct (js_index (contents w) (cy c)); [eauto|done].
Qed.

(** Writing a cell changes that cell and no other. *)
Lemma write_row (w : World) (x y : Z) (v : option ref) :
  has_row w y →
  ∃ w', write x y v w = Ret tt w' ∧
        heap w' = heap w ∧ next w' = next w ∧ effects w' = effects w ∧
        length (contents w') = length (contents w) ∧
        ∀ c, occupant w' c =
               if decide (c = mkCoord x y) then v else occupant w c.
Proof.
  intros Hy. destruct (has_row_index _ _ Hy) as [row Hrow].
  unfold write. rewrite Hrow. eexists. split; [reflexivity|].
  simpl. split_and!; try done; [by rewrite length_insert|].
  intros [x' y']. unfold occupant, cell. simpl.
  apply js_index_Some in Hrow as [Hy0 Hrow].
  unfold js_index. case_decide as Hy'.
  - destruct (decide (Z.to_nat y = Z.to_nat y')) as [Hyy|Hyy].
    + assert (y' = y) as -> by lia.
      rewrite list_lookup_insert_eq by (by eapply lookup_lt_Some).
      rewrite Hrow. simpl.
      destruct (decide (x' = x)) as [->|Hx].
      * rewrite decide_True by done.
        destruct v; [by rewrite lookup_insert_eq|by rewrite lookup_delete_eq].
      * rewrite decide_False by congruence.
        destruct v; [by rewrite lookup_insert_ne|by rewrite lookup_delete_ne].
    + rewrite list_lookup_insert_ne by done.
      rewrite decide_False; [done|]. intros [= -> ->]. done.
  - rewrite decide_False; [done|]. intros [= -> ->]. lia.
Qed.

Lemma write_no_row (w : World) (x y : Z) (v : option ref) :
  ¬ has_row w y → write x y v w = Throw TypeError w.
Proof.
  intros H. unfold write.
  destruct (js_index (contents w) y) eqn:E; [|done].
  destruct H. apply js_index_is_Some. eauto.
Qed.

(** ** [slide] *)

Lemma slide_step (w : World) (this : ref) (d : string) (dx dy : Z) (c : Coord) :
  coord (heap w this) = Some c →
  (c' ← get_coord this;
   modify (update this (set_coord (Some (move dx dy c'))))) w
  = Ret tt (update this (set_coord (Some (move dx dy c))) w).
Proof. intros H. by rewrite (bind_ret _ _ _ _ _ (get_coord_eq _ _ _ H)). Qed.


(** ** The constructor *)


(** ** The square test *)

Lemma checkForClear_rows (w : World) (this : ref) (c : Coord) :
  has_row w (cy c) → has_row w (cy c + 1) →
  checkForClear this c w = Ret (square w this c) w.
Proof.
  intros Hy Hy1. unfold checkForClear, square, matchingb, move.
  rewrite bind_eq. simpl.
  rewrite bind_eq, (read_row _ _ _ Hy).
  replace (mkCoord (cx c) (cy c)) with c by by destruct c.
  destruct (matchingColor w this (occupant w c)); simpl; [|done].
  rewrite bind_eq, (read_row _ _ _ Hy1).
  replace (cx c + 0) with (cx c) by lia.
  destruct (matchingColor w this (occupant w (mkCoord (cx c) (cy c + 1))));
    simpl; [|done].
  rewrite bind_eq, (read_row _ _ _ Hy).
  replace (cy c + 0) with (cy c) by lia.
  destruct (matchingColor w this (occupant w (mkCoord (cx c + 1) (cy c))));
    simpl; [|done].
  by rewrite bind_eq, (read_row _ _ _ Hy1).
Qed.

Lemma doClear_rows (w : World) (this : ref) (c : Coord) :
  coord (heap w this) = Some c →
  has_row w (cy c - 1) → has_row w (cy c) → has_row w (cy c + 1) →
  doClear this w = Ret (any_square w this c) w.
Proof.
  intros Hc Hy0 Hy Hy1. unfold doClear, any_square.
  rewrite (bind_ret _ _ _ _ _ (get_coord_eq _ _ _ Hc)).
  replace (mkCoord (cx c) (cy c)) with c by by destruct c.
  rewrite bind_eq, checkForClear_rows by done.
  destruct (square w this c); simpl; [done|].
  rewrite bind_eq, checkForClear_rows by done.
  unfold move at 1. replace (cx c + -1) with (cx c - 1) by lia.
  replace (cy c + 0) with (cy c) by lia.
  destruct (square w this (mkCoord (cx c - 1) (cy c))); simpl; [done|].
  rewrite bind_eq, checkForClear_rows
    by (simpl; by replace (cy c - 1 + 1) with (cy c) by lia).
  unfold move at 1. replace (cx c + 0) with (cx c) by lia.
  replace (cy c + -1) with (cy c - 1) by lia.
  destruct (square w this (mkCoord (cx c) (cy c - 1))); simpl; [done|].
  rewrite checkForClear_rows
    by (simpl; by replace (cy c - 1 + 1) with (cy c) by lia).
  unfold move. replace (cx c + -1) with (cx c - 1) by lia.
  by replace (cy c + -1) with (cy c - 1) by lia.
Qed.

(** ** What [eraseBlocks] does in any world *)

Lemma erased_refl (P : ref → Prop) (w : World) : erased P w w.
Proof.
  unfold erased. split_and!; try done.
  exists []. rewrite app_nil_r. split_and!; [done|done|by left].
Qed.

Lemma erased_trans (P : ref → Prop) (w1 w2 w3 : World) :
  erased P w1 w2 → erased P w2 w3 → erased P w1 w3.
Proof.
  intros (Hh & Hn & Hl & l & He & HP & Hc)
         (Hh' & Hn' & Hl' & l' & He' & HP' & Hc').
  unfold erased. split_and!; try congruence.
  exists (l ++ l'). split_and!; [|by apply Forall_app|].
  - by rewrite He', He, fmap_app, app_assoc.
  - intros c. destruct (Hc' c) as [->|[-> (r & Hr & Hrc)]].
    + destruct (Hc c) as [->|[-> (r & Hr & Hrc)]]; [by left|right].
      split; [done|]. exists r. split; [|done]. apply elem_of_app. by left.
    + right. split; [done|]. exists r. split; [|congruence].
      apply elem_of_app. by right.
Qed.

Lemma erased_weaken (P Q : ref → Prop) (w w' : World) :
  (∀ r, P r → Q r) → erased P w w' → erased Q w w'.
Proof.
  intros HPQ (Hh & Hn & Hl & l & He & HP & Hc). unfold erased.
  split_and!; try done. exists l. split_and!; [done| |done].
  by eapply Forall_impl.
Qed.

Lemma erased_occupant (P : ref → Prop) (w w' : World) (c : Coord) (r : ref) :
  erased P w w' → occupant w' c = Some r → occupant w c = Some r.
Proof.
  intros (_ & _ & _ & l & _ & _ & Hc) Hr.
  destruct (Hc c) as [<-|[? _]]; congruence.
Qed.

Lemma erased_heap (P : ref → Prop) (w w' : World) :
  erased P w w' → heap w' = heap w.
Proof. by intros (? & _). Qed.

(** A relation between worlds that each step respects is respected by
    the sequence, wherever it stops. *)
Lemma bind_world {A B} (R : World → World → Prop) (m : M A) (k : A → M B)
    (w : World) :
  (∀ w1 w2 w3, R w1 w2 → R w2 w3 → R w1 w3) →
  R w (world_of (m w)) →
  (∀ a w1, m w = Ret a w1 → R w1 (world_of (k a w1))) →
  R w (world_of ((m ≫= k) w)).
Proof.
  intros Htrans Hm Hk. rewrite bind_eq.
  destruct (m w) as [a w1|e w1|w1] eqn:E; simpl in *; [|done..].
  eapply Htrans; [exact Hm|]. by apply Hk.
Qed.

Lemma destroy_cases (this : ref) (w : World) :
  let w1 := emit (TweenShrink this) w in
  match coord (heap w this) with
  | None => destroy this w = Throw TypeError w1
  | Some c =>
      if decide (has_row w (cy c))
      then ∃ w', destroy this w = Ret tt w' ∧
             heap w' = heap w ∧ next w' = next w ∧
             effects w' = effects w ++ [TweenShrink this] ∧
             length (contents w') = length (contents w) ∧
             ∀ c', occupant w' c' =
                     if decide (c' = c) then None else occupant w c'
      else destroy this w = Throw TypeError w1
  end.
Proof.
  cbv zeta. unfold destroy. rewrite bind_eq. simpl. rewrite bind_eq.
  unfold get_coord. simpl.
  destruct (coord (heap w this)) as [c|]; [|done].
  case_decide as Hy.
  - destruct (write_row (emit (TweenShrink this) w) (cx c) (cy c) None Hy)
      as (w' & Hw & Hh & Hn & He & Hl & Hc).
    exists w'. split; [done|]. split_and!; try done.
    intros c'. rewrite Hc. by destruct c.
  - by rewrite write_no_row.
Qed.

Lemma destroy_erased (P : ref → Prop) (this : ref) (w : World) :
  P this → erased P w (world_of (destroy this w)).
Proof.
  intros HP. pose proof (destroy_cases this w) as H. cbv zeta in H.
  assert (He : erased P w (emit (TweenShrink this) w)).
  { unfold erased. simpl. split_and!; try done.
    exists [this]. split_and!; [done|by constructor|by left]. }
  destruct (coord (heap w this)) as [c|] eqn:Hcoord; [|by rewrite H].
  case_decide; [|by rewrite H].
  destruct H as (w' & -> & Hh & Hn & Hef & Hl & Hc). simpl.
  unfold erased. split_and!; try done.
  exists [this]. split_and!; [done|by constructor|].
  intros c'. rewrite Hc. case_decide as Hcc; [|by left].
  right. split; [done|]. exists this. split; [apply list_elem_of_here|].
  by rewrite Hcc.
Qed.

Lemma neighbour_erased (erase : ref → list ref → M (list ref))
    (this block : ref) (dx dy : Z) (D : list ref) (w : World) :
  (∀ b D', target w this b →
     erased (target w this) w (world_of (erase b D' w))) →
  erased (target w this) w (world_of (neighbour erase this block dx dy D w)).
Proof.
  intros Herase. unfold neighbour, visit, get_coord. rewrite bind_eq.
  destruct (coord (heap w block)) as [c|]; [|apply erased_refl].
  rewrite bind_eq. unfold read.
  destruct (js_index (contents w) (cy c + dy)) as [row|] eqn:Hrow;
    [|apply erased_refl].
  rewrite bind_eq. simpl.
  destruct (row !! (cx c + dx)) as [b|] eqn:Hb; [|apply erased_refl].
  destruct (bool_decide _) eqn:E; [|apply erased_refl].
  apply Herase. split; [by apply bool_decide_eq_true in E|].
  exists (mkCoord (cx c + dx) (cy c + dy)).
  unfold occupant, cell. simpl. by rewrite Hrow.
Qed.

Lemma target_erased (P : ref → Prop) (w w' : World) (this r : ref) :
  erased P w w' → target w' this r → target w this r.
Proof.
  intros Hw [Hcol [c Hc]]. split.
  - unfold same_color in *. by rewrite <- (erased_heap _ _ _ Hw).
  - exists c. by eapply erased_occupant.
Qed.

(** [eraseBlocks] runs [destroy] on blocks of the grid that have the
    colour of [this], and changes nothing else, however it ends. *)
Lemma eraseBlocks_erased (fuel : nat) (this block : ref) (D : list ref)
    (w : World) :
  target w this block →
  erased (target w this) w (world_of (eraseBlocks fuel this block D w)).
Proof.
  revert block D w. induction fuel as [|fuel IH]; intros block D w Hb.
  { apply erased_refl. }
  simpl. case_decide; [apply erased_refl|].
  set (P := target w this).
  assert (Hstep : ∀ dx dy D0 w0, erased P w w0 →
            erased P w0
              (world_of (neighbour (eraseBlocks fuel this) this block dx dy D0 w0))).
  { intros dx dy D0 w0 Hw0.
    eapply erased_weaken; [|apply neighbour_erased].
    - intros r. by apply (target_erased P).
    - intros b D' Hb'. by apply IH. }
  assert (Hnext : ∀ dx dy D0 w0 D1 w1, erased P w w0 →
            neighbour (eraseBlocks fuel this) this block dx dy D0 w0 = Ret D1 w1 →
            erased P w w1).
  { intros dx dy D0 w0 D1 w1 Hw0 Hn. eapply erased_trans; [exact Hw0|].
    pose proof (Hstep dx dy D0 w0 Hw0) as Hs. by rewrite Hn in Hs. }
  apply (bind_world (erased P)); [apply erased_trans|by apply destroy_erased|].
  intros [] w1 H1.
  assert (erased P w w1) as Hw1.
  { pose proof (destroy_erased P block w Hb) as Hd. by rewrite H1 in Hd. }
  apply (bind_world (erased P)); [apply erased_trans|by apply Hstep|].
  intros D2 w2 H2. pose proof (Hnext _ _ _ _ _ _ Hw1 H2) as Hw2.
  apply (bind_world (erased P)); [apply erased_trans|by apply Hstep|].
  intros D3 w3 H3. pose proof (Hnext _ _ _ _ _ _ Hw2 H3) as Hw3.
  apply (bind_world (erased P)); [apply erased_trans|by apply Hstep|].
  intros D4 w4 H4. pose proof (Hnext _ _ _ _ _ _ Hw3 H4) as Hw4.
  by apply Hstep.
Qed.

(** One neighbour step, seen from an earlier world [w0]. *)
Lemma neighbour_eraseBlocks_step (fuel : nat) (this block : ref)
    (dx dy : Z) (D : list ref) (P : ref → Prop) (w0 w : World) :
  erased P w0 w →
  erased (target w0 this) w
    (world_of (neighbour (eraseBlocks fuel this) this block dx dy D w)).
Proof.
  intros Hw. eapply erased_weaken; [|apply neighbour_erased].
  - intros r. by apply (target_erased P).
  - intros b D' Hb. by apply eraseBlocks_erased.
Qed.

Lemma neighbour_eraseBlocks_next (fuel : nat) (this block : ref)
    (dx dy : Z) (D D' : list ref) (w0 w w' : World) :
  erased (target w0 this) w0 w →
  neighbour (eraseBlocks fuel this) this block dx dy D w = Ret D' w' →
  erased (target w0 this) w0 w'.
Proof.
  intros Hw H. eapply erased_trans; [exact Hw|].
  pose proof (neighbour_eraseBlocks_step fuel this block dx dy D _ w0 w Hw)
    as Hs. by rewrite H in Hs.
Qed.

(** ** Termination *)

Lemma occupant_grid_refs (w : World) (c : Coord) (r : ref) :
  occupant w c = Some r → r ∈ grid_refs (contents w).
Proof.
  unfold occupant, cell, grid_refs.
  destruct (js_index (contents w) (cy c)) as [row|] eqn:Hrow; [|done].
  simpl. intros Hr. apply js_index_Some in Hrow as [_ Hrow].
  apply list_elem_of_join. exists (snd <$> map_to_list row). split.
  - apply list_elem_of_fmap. exists (cx c, r). split; [done|].
    by apply elem_of_map_to_list.
  - apply list_elem_of_fmap. exists row. split; [done|].
    by eapply list_elem_of_lookup_2.
Qed.

Lemma neighbour_terminated (erase : ref → list ref → M (list ref))
    (this block : ref) (dx dy : Z) (D : list ref) (w : World) (U : list ref) :
  NoDup D → D ⊆ U →
  (∀ c r, occupant w c = Some r → r ∈ U) →
  (∀ b, b ∈ U → target w this b → terminated U D (erase b D w)) →
  terminated U D (neighbour erase this block dx dy D w).
Proof.
  intros HD HDU HU Herase. unfold neighbour, visit, get_coord.
  rewrite bind_eq.
  destruct (coord (heap w block)) as [c|]; [|done].
  rewrite bind_eq. unfold read.
  destruct (js_index (contents w) (cy c + dy)) as [row|] eqn:Hrow; [|done].
  rewrite bind_eq. simpl.
  destruct (row !! (cx c + dx)) as [b|] eqn:Hb; [|done].
  destruct (bool_decide _) eqn:E; [|done].
  assert (occupant w (mkCoord (cx c + dx) (cy c + dy)) = Some b) as Hocc.
  { unfold occupant, cell. simpl. by rewrite Hrow. }
  apply Herase; [by eapply HU|].
  split; [by apply bool_decide_eq_true in E|by eexists].
Qed.

(** The depth of the recursion is bounded: every nested call has one
    more block in [destroyed], and all of them come from [U]. *)
Lemma eraseBlocks_terminated (fuel : nat) (this block : ref) (D : list ref)
    (w : World) (U : list ref) :
  NoDup D → D ⊆ U → block ∈ U →
  (∀ c r, occupant w c = Some r → r ∈ U) →
  (length U < fuel + length D)%nat →
  terminated U D (eraseBlocks fuel this block D w).
Proof.
  revert block D w.
  induction fuel as [|fuel IH]; intros block D w HD HDU HbU HU Hlen.
  { apply NoDup_submseteq in HDU; [|done].
    apply submseteq_length in HDU. lia. }
  simpl. case_decide as HbD; [done|].
  set (P := λ _ : ref, True).
  assert (HD1 : NoDup (D ++ [block])).
  { apply NoDup_app. split_and!; [done| |apply NoDup_singleton].
    intros x Hx ->%list_elem_of_singleton. done. }
  assert (HD1U : D ++ [block] ⊆ U).
  { intros x [Hx| ->%list_elem_of_singleton]%elem_of_app; [by apply HDU|done]. }
  assert (Hstep : ∀ dx dy D0 w0, erased P w w0 →
            NoDup D0 → D0 ⊆ U → (length D < length D0)%nat →
            terminated U D0
              (neighbour (eraseBlocks fuel this) this block dx dy D0 w0)).
  { intros dx dy D0 w0 Hw0 HD0 HD0U Hl. apply neighbour_terminated; try done.
    - intros c r Hr. apply (HU c). by eapply erased_occupant.
    - intros b HbU' Hb'. apply IH; try done; [|lia].
      intros c r Hr. apply (HU c). by eapply erased_occupant. }
  assert (Hnext : ∀ dx dy D0 w0 D1 w1, erased P w w0 →
            neighbour (eraseBlocks fuel this) this block dx dy D0 w0 = Ret D1 w1 →
            erased P w w1).
  { intros dx dy D0 w0 D1 w1 Hw0 Hn. eapply erased_trans; [exact Hw0|].
    eapply erased_weaken; [done|].
    pose proof (neighbour_eraseBlocks_step fuel this block dx dy D0 _ w w0 Hw0)
      as Hs. rewrite Hn in Hs. exact Hs. }
  assert (Hdes : erased P w (world_of (destroy block w)))
    by by apply destroy_erased.
  rewrite bind_eq.
  destruct (destroy block w) as [[] w1|e w1|w1] eqn:E1; [|done|].
  2:{ pose proof (destroy_cases block w) as Hc. cbv zeta in Hc.
      destruct (coord (heap w block)); [case_decide|];
        [destruct Hc as (? & ? & _)|..]; congruence. }
  simpl in Hdes.
  pose proof (Hstep 0 1 (D ++ [block]) w1 Hdes HD1 HD1U) as H2.
  rewrite bind_eq.
  destruct (neighbour _ _ _ 0 1 _ w1) as [D2 w2|e w2|w2] eqn:E2; [|done|];
    [|by apply H2; rewrite length_app; simpl; lia].
  destruct H2 as (HD2 & HD2U & Hl2); [rewrite length_app; simpl; lia|].
  rewrite length_app in Hl2. simpl in Hl2.
  pose proof (Hnext _ _ _ _ _ _ Hdes E2) as Hw2.
  pose proof (Hstep 0 (-1) D2 w2 Hw2 HD2 HD2U) as H3.
  rewrite bind_eq.
  destruct (neighbour _ _ _ 0 (-1) _ w2) as [D3 w3|e w3|w3] eqn:E3; [|done|];
    [|by apply H3; lia].
  destruct H3 as (HD3 & HD3U & Hl3); [lia|].
  pose proof (Hnext _ _ _ _ _ _ Hw2 E3) as Hw3.
  pose proof (Hstep 1 0 D3 w3 Hw3 HD3 HD3U) as H4.
  rewrite bind_eq.
  destruct (neighbour _ _ _ 1 0 _ w3) as [D4 w4|e w4|w4] eqn:E4; [|done|];
    [|by apply H4; lia].
  destruct H4 as (HD4 & HD4U & Hl4); [lia|].
  pose proof (Hnext _ _ _ _ _ _ Hw3 E4) as Hw4.
  pose proof (Hstep (-1) 0 D4 w4 Hw4 HD4 HD4U) as H5.
  destruct (neighbour _ _ _ (-1) 0 _ w4) as [D5 w5|e w5|w5]; [|done|];
    [|by apply H5; lia].
  destruct H5 as (HD5 & HD5U & Hl5); [lia|].
  split_and!; [done..|lia].
Qed.

Lemma pure_ret {A} (a : A) : pure (mret a : M A).
Proof. intros w. left. by exists a. Qed.

Lemma pure_bind {A B} (m : M A) (k : A → M B) :
  pure m → (∀ a, pure (k a)) → pure (m ≫= k).
Proof.
  intros Hm Hk w. rewrite bind_eq.
  destruct (Hm w) as [[a ->]|[e ->]]; [apply Hk|right; by exists e].
Qed.

Lemma pure_get : pure get.
Proof. intros w. left. by exists w. Qed.

Lemma pure_read (x y : Z) : pure (read x y).
Proof.
  intros w. unfold read. destruct (js_index _ _); [left|right]; by eexists.
Qed.

Lemma pure_get_coord (r : ref) : pure (get_coord r).
Proof.
  intros w. unfold get_coord. destruct (coord _); [left|right]; by eexists.
Qed.

Lemma pure_checkForClear (this : ref) (c : Coord) : pure (checkForClear this c).
Proof.
  unfold checkForClear.
  repeat first
    [ apply pure_ret | apply pure_get | apply pure_read
    | apply pure_bind; [|intros ?] | case_match ].
Qed.

Lemma pure_doClear (this : ref) : pure (doClear this).
Proof.
  unfold doClear.
  repeat first
    [ apply pure_ret | apply pure_get_coord | apply pure_checkForClear
    | apply pure_bind; [|intros ?] | case_match ].
Qed.

(** [clear] always ends: the bound it gives to [eraseBlocks] is enough
    in every world, consistent or not. *)
Lemma clear_terminates (this : ref) (w w' : World) :
  clear this w ≠ OutOfFuel w'.
Proof.
  unfold clear. rewrite bind_eq.
  destruct (pure_doClear this w) as [[go ->]|[e ->]]; [|done].
  destruct go; [|done].
  rewrite (bind_ret get _ w w w) by done. rewrite bind_eq.
  pose proof (eraseBlocks_terminated (enough_fuel w) this this [] w
                (this :: grid_refs (contents w))) as H.
  destruct (eraseBlocks _ _ _ _ _); [done|done|].
  destruct H; try done.
  - apply NoDup_nil_2.
  - apply list_subseteq_nil.
  - apply list_elem_of_here.
  - intros c r Hr. apply list_elem_of_further. by eapply occupant_grid_refs.
  - unfold enough_fuel. simpl. lia.
Qed.

(** Once [destroy] has run on [block], the rest of [eraseBlocks] only
    erases further. *)
Lemma eraseBlocks_after_destroy (fuel : nat) (this block : ref)
    (D : list ref) (w w1 : World) :
  block ∉ D → destroy block w = Ret tt w1 →
  erased (target w1 this) w1
    (world_of (eraseBlocks (S fuel) this block D w)).
Proof.
  intros HbD Hd. simpl. rewrite decide_False by done.
  rewrite bind_eq, Hd. set (P := target w1 this).
  pose proof (erased_refl P w1) as Hw1.
  apply (bind_world (erased P)); [apply erased_trans
    |by eapply neighbour_eraseBlocks_step|].
  intros D2 w2 H2. pose proof (neighbour_eraseBlocks_next _ _ _ _ _ _ _ _ _ _ Hw1 H2) as Hw2.
  apply (bind_world (erased P)); [apply erased_trans
    |by eapply neighbour_eraseBlocks_step|].
  intros D3 w3 H3. pose proof (neighbour_eraseBlocks_next _ _ _ _ _ _ _ _ _ _ Hw2 H3) as Hw3.
  apply (bind_world (erased P)); [apply erased_trans
    |by eapply neighbour_eraseBlocks_step|].
  intros D4 w4 H4. pose proof (neighbour_eraseBlocks_next _ _ _ _ _ _ _ _ _ _ Hw3 H4) as Hw4.
  by eapply neighbour_eraseBlocks_step.
Qed.


(** ** The flood fill in a consistent grid *)

Lemma reach_trans (w : World) (this : ref) (a b c : Coord) :
  reach w this a b → reach w this b c → reach w this a c.
Proof.
  intros Hab. induction 1 as [|c1 c2 _ IH Hadj Hm]; [done|].
  by eapply reach_step.
Qed.

Lemma reach_mono (w w' : World) (this : ref) (a c : Coord) :
  heap w' = heap w →
  (∀ c r, occupant w' c = Some r → occupant w c = Some r) →
  reach w' this a c → reach w this a c.
Proof.
  intros Hh Hsub. induction 1 as [|c1 c2 _ IH Hadj (r & Hr & Hcol)];
    [apply reach_refl|].
  eapply reach_step; [exact IH|exact Hadj|].
  exists r. split; [by apply Hsub|]. by rewrite <- Hh.
Qed.

Lemma without_Some (w : World) (l : list ref) (c : Coord) (r : ref) :
  without w l c = Some r ↔ occupant w c = Some r ∧ r ∉ l.
Proof.
  unfold without. destruct (occupant w c) as [r0|]; [|by split; [|intros [? _]]].
  case_decide; (split; [intros [= <-]|intros [[= <-] ?]]); done.
Qed.

Lemma without_app (w w' : World) (l l' : list ref) (c : Coord) :
  (∀ c, occupant w' c = without w l c) →
  without w' l' c = without w (l ++ l') c.
Proof.
  intros Hocc. unfold without at 1. rewrite Hocc. unfold without.
  destruct (occupant w c) as [r|]; [|done].
  destruct (decide (r ∈ l)) as [Hl|Hl].
  - rewrite decide_True; [done|]. apply elem_of_app. by left.
  - destruct (decide (r ∈ l')) as [Hl'|Hl'].
    + rewrite decide_True; [done|]. apply elem_of_app. by right.
    + rewrite decide_False; [done|]. by intros [?|?]%elem_of_app.
Qed.

Lemma consistent_inj (w : World) (c c' : Coord) (r : ref) :
  consistent w → occupant w c = Some r → occupant w c' = Some r → c = c'.
Proof. intros Hc H1%Hc H2%Hc. congruence. Qed.

Lemma adjacent_neighbours (c c' : Coord) : adjacent c c' → c' ∈ neighbours c.
Proof.
  unfold neighbours. intros [->|[->|[->| ->]]];
    rewrite !elem_of_cons; tauto.
Qed.

(** A cell next to [cb] was looked at and nothing was to be done. *)
Lemma visiting_skip (w0 w : World) (this b : ref) (cb p : Coord)
    (visited : list Coord) (l : list ref) :
  visiting w0 this b cb visited w l →
  (∀ r', occupant w0 p = Some r' → same_color w0 this r' → r' ∈ l) →
  visiting w0 this b cb (p :: visited) w l.
Proof.
  intros (Hh & Hlen & Hef & Hnd & Hbl & Hsound & Hocc & Hclosed) Hp.
  unfold visiting. split_and!; try done.
  intros c r c' r' Hr Hrl Hvis Hadj Hr' Hcol.
  destruct (decide (r = b ∧ c' = p)) as [[-> ->]|Hne]; [by eapply Hp|].
  apply (Hclosed c r c' r'); try done.
  intros Hrb. pose proof (Hvis Hrb) as [Hv|Hv]%elem_of_cons; [tauto|done].
Qed.

(** A cell [p] next to [cb] held a matching block and the recursive call
    on it is over. *)
Lemma visiting_compose (w0 w w' : World) (this b b' : ref) (cb p : Coord)
    (visited : list Coord) (l l' : list ref) :
  consistent w0 → occupant w0 cb = Some b →
  visiting w0 this b cb visited w l →
  occupant w p = Some b' → same_color w this b' → adjacent cb p →
  visiting w this b' p (neighbours p) w' l' →
  visiting w0 this b cb (p :: visited) w' (l ++ l').
Proof.
  intros Hcons Hb (Hh & Hlen & Hef & Hnd & Hbl & Hsound & Hocc & Hclosed)
         Hp Hcol Hadj
         (Hh' & Hlen' & Hef' & Hnd' & Hbl' & Hsound' & Hocc' & Hclosed').
  assert (Hsub : ∀ c r, occupant w c = Some r → occupant w0 c = Some r ∧ r ∉ l).
  { intros c r. rewrite Hocc. apply without_Some. }
  assert (Hp0 : occupant w0 p = Some b') by by apply Hsub.
  assert (Hcb_p : reach w0 this cb p).
  { eapply reach_step; [apply reach_refl|exact Hadj|].
    exists b'. split; [done|]. unfold same_color in Hcol. by rewrite <- Hh. }
  unfold visiting. split_and!.
  - congruence.
  - congruence.
  - by rewrite Hef', Hef, fmap_app, app_assoc.
  - apply NoDup_app. split_and!; [done| |done].
    intros x Hx Hx'. destruct (Hsound' x Hx') as (c & Hc & _).
    by apply Hsub in Hc as [_ ?].
  - apply elem_of_app. by left.
  - intros r [Hr|Hr]%elem_of_app; [by apply Hsound|].
    destruct (Hsound' r Hr) as (c & Hc & Hreach). exists c.
    split; [by apply Hsub|].
    eapply reach_trans; [exact Hcb_p|].
    eapply reach_mono; [exact Hh| |exact Hreach].
    intros c0 r0 H0. by apply Hsub.
  - intros c. rewrite Hocc'. by apply without_app.
  - intros c r c' r' Hr Hrl Hvis Hadj' Hr' Hcol'.
    apply elem_of_app.
    destruct (decide (r' ∈ l)) as [|Hr'l]; [by left|].
    destruct (decide (r ∈ l)) as [Hl|Hl].
    + destruct (decide (r = b)) as [->|Hrb].
      * pose proof (Hvis eq_refl) as [Hv|Hv]%elem_of_cons.
        -- subst c'. right. congruence.
        -- left. by apply (Hclosed c b c' r').
      * left. by apply (Hclosed c r c' r').
    + right. apply elem_of_app in Hrl as [|Hrl]; [done|].
      assert (occupant w c = Some r) as Hrw.
      { rewrite Hocc. by apply without_Some. }
      assert (occupant w c' = Some r') as Hrw'.
      { rewrite Hocc. by apply without_Some. }
      eapply (Hclosed' c r c' r'); try done.
      * intros ->. apply adjacent_neighbours.
        by rewrite (consistent_inj w0 p c b').
      * unfold same_color in *. by rewrite Hh.
Qed.

Lemma neighbour_visiting (erase : ref → list ref → M (list ref))
    (this b : ref) (cb : Coord) (dx dy : Z) (D : list ref)
    (visited : list Coord) (w0 w : World) (l : list ref) :
  erase_pre w0 this b cb D →
  visiting w0 this b cb visited w l →
  adjacent cb (move dx dy cb) →
  (∀ b' cb', erase_pre w this b' cb' (D ++ l) →
     erase_post w this b' cb' (D ++ l) (erase b' (D ++ l) w)) →
  visit_post w0 this b cb D (move dx dy cb :: visited)
    (neighbour erase this b dx dy (D ++ l) w).
Proof.
  intros (Hcons & Hb & Hcol & HD & Hint) Hvis Hadj Herase.
  pose proof Hvis as (Hh & Hlen & Hef & Hnd & Hbl & Hsound & Hocc & Hclosed).
  assert (Hsub : ∀ c r, occupant w c = Some r → occupant w0 c = Some r ∧ r ∉ l).
  { intros c r. rewrite Hocc. apply without_Some. }
  assert (Hcoord : coord (heap w b) = Some cb) by (rewrite Hh; by apply Hcons).
  assert (Hrow : has_row w (cy cb + dy)).
  { destruct (Hint cb (reach_refl _ _ _)) as [H0 H1].
    unfold has_row in *. rewrite Hlen.
    destruct Hadj as [E|[E|[E|E]]]; injection E; lia. }
  unfold neighbour. rewrite (bind_ret _ _ _ _ _ (get_coord_eq _ _ _ Hcoord)).
  unfold visit. rewrite bind_eq, (read_row _ _ _ Hrow).
  rewrite (bind_ret get _ w w w) by done.
  change (mkCoord (cx cb + dx) (cy cb + dy)) with (move dx dy cb).
  set (p := move dx dy cb) in *.
  assert (Hskip : matchingColor w this (occupant w p) = false →
            visit_post w0 this b cb D (p :: visited) (Ret (D ++ l) w)).
  { intros Hm. exists l. split; [done|]. apply visiting_skip; [done|].
    intros r' Hr' Hcol'. destruct (decide (r' ∈ l)) as [|Hr'l]; [done|].
    rewrite Hocc in Hm. unfold without in Hm. rewrite Hr' in Hm.
    rewrite decide_False in Hm by done. simpl in Hm.
    apply bool_decide_eq_false in Hm. destruct Hm.
    unfold same_color in Hcol'. by rewrite Hh. }
  destruct (occupant w p) as [b'|] eqn:Hp; [|by apply Hskip].
  destruct (matchingColor w this (Some b')) eqn:Hm; [|by apply Hskip].
  clear Hskip. simpl in Hm. apply bool_decide_eq_true in Hm.
  destruct (Hsub _ _ Hp) as [Hp0 Hb'l].
  assert (Hpre : erase_pre w this b' p (D ++ l)).
  { unfold erase_pre. split_and!; try done.
    - intros c r Hr. rewrite Hh. apply Hcons. by apply Hsub.
    - intros r [Hr|Hr]%elem_of_app [c Hc].
      + apply (HD r Hr). exists c. by apply Hsub.
      + by apply Hsub in Hc as [_ ?].
    - intros c Hreach.
      assert (reach w0 this cb c) as Hreach0.
      { eapply reach_trans.
        - eapply reach_step; [apply reach_refl|exact Hadj|].
          exists b'. split; [done|]. by rewrite <- Hh.
        - eapply reach_mono; [exact Hh| |exact Hreach].
          intros c0 r0 H0. by apply Hsub. }
      destruct (Hint c Hreach0). unfold has_row in *. by rewrite Hlen. }
  specialize (Herase b' p Hpre). unfold erase_post in Herase.
  destruct (erase b' (D ++ l) w) as [D' w'|e w'|w']; [|done..].
  destruct Herase as (l' & -> & Hvis').
  exists (l ++ l'). split; [by rewrite app_assoc|].
  by eapply visiting_compose.
Qed.

(** [eraseBlocks] in a consistent grid, away from the first and the
    last row: it does not throw, and what it returns is the flood fill. *)
Lemma eraseBlocks_flood (fuel : nat) (this b : ref) (cb : Coord)
    (D : list ref) (w : World) :
  erase_pre w this b cb D →
  erase_post w this b cb D (eraseBlocks fuel this b D w).
Proof.
  revert b cb D w. induction fuel as [|fuel IH]; intros b cb D w Hpre; [done|].
  pose proof Hpre as (Hcons & Hb & Hcol & HD & Hint).
  simpl. rewrite decide_False by (intros HbD; apply (HD b HbD); by exists cb).
  pose proof (destroy_cases b w) as Hd. cbv zeta in Hd.
  rewrite (Hcons _ _ Hb), decide_True in Hd
    by (destruct (Hint cb (reach_refl _ _ _)); unfold has_row in *; lia).
  destruct Hd as (w1 & Hd & Hh & Hn & He & Hl & Hocc).
  rewrite bind_eq, Hd.
  assert (Hv1 : visiting w this b cb [] w1 [b]).
  { unfold visiting. split_and!; try done.
    - apply NoDup_singleton.
    - apply list_elem_of_here.
    - intros r ->%list_elem_of_singleton. exists cb.
      split; [done|apply reach_refl].
    - intros c. rewrite Hocc. unfold without. case_decide as Hc.
      + subst c. rewrite Hb. rewrite decide_True; [done|apply list_elem_of_here].
      + destruct (occupant w c) as [r|] eqn:Hr; [|done].
        rewrite decide_False; [done|].
        intros ->%list_elem_of_singleton. destruct Hc.
        by eapply consistent_inj.
    - intros c r c' r' _ ->%list_elem_of_singleton Hvis.
      by pose proof (Hvis eq_refl) as ?%elem_of_nil. }
  assert (Hstep : ∀ dx dy visited w0 l,
            visiting w this b cb visited w0 l →
            adjacent cb (move dx dy cb) →
            visit_post w this b cb D (move dx dy cb :: visited)
              (neighbour (eraseBlocks fuel this) this b dx dy (D ++ l) w0)).
  { intros dx dy visited w0 l Hv Hadj.
    eapply neighbour_visiting; try done. intros b' cb'. apply IH. }
  pose proof (Hstep 0 1 _ _ _ Hv1) as H1.
  rewrite bind_eq.
  destruct (neighbour _ _ _ 0 1 _ w1) as [D2 w2|e w2|w2];
    [|apply H1; unfold adjacent; tauto|done].
  destruct H1 as (l2 & -> & Hv2); [unfold adjacent; tauto|].
  pose proof (Hstep 0 (-1) _ _ _ Hv2) as H2.
  rewrite bind_eq.
  destruct (neighbour _ _ _ 0 (-1) _ w2) as [D3 w3|e w3|w3];
    [|apply H2; unfold adjacent; tauto|done].
  destruct H2 as (l3 & -> & Hv3); [unfold adjacent; tauto|].
  pose proof (Hstep 1 0 _ _ _ Hv3) as H3.
  rewrite bind_eq.
  destruct (neighbour _ _ _ 1 0 _ w3) as [D4 w4|e w4|w4];
    [|apply H3; unfold adjacent; tauto|done].
  destruct H3 as (l4 & -> & Hv4); [unfold adjacent; tauto|].
  pose proof (Hstep (-1) 0 _ _ _ Hv4) as H4.
  destruct (neighbour _ _ _ (-1) 0 _ w4) as [D5 w5|e w5|w5];
    [|apply H4; unfold adjacent; tauto|done].
  destruct H4 as (l5 & -> & Hv5); [unfold adjacent; tauto|].
  by exists l5.
Qed.

Lemma eraseBlocks_erased_any (fuel : nat) (this block : ref) (D : list ref)
    (w : World) :
  erased (λ _, True) w (world_of (eraseBlocks fuel this block D w)).
Proof.
  destruct fuel as [|fuel]; [apply erased_refl|].
  destruct (decide (block ∈ D)) as [HbD|HbD].
  { simpl. rewrite decide_True by done. apply erased_refl. }
  pose proof (destroy_erased (λ _, True) block w I) as Hd.
  destruct (destroy block w) as [[] w1|e w1|w1] eqn:E.
  - eapply erased_trans; [exact Hd|].
    eapply erased_weaken; [|by eapply eraseBlocks_after_destroy]. done.
  - simpl. rewrite decide_False by done. by rewrite bind_eq, E.
  - simpl. rewrite decide_False by done. by rewrite bind_eq, E.
Qed.

Lemma world_of_then_ret {A} (m : M A) (w : World) :
  world_of ((m ≫= λ _, mret tt) w) = world_of (m w).
Proof. rewrite bind_eq. by destruct (m w). Qed.

(** [clear] in any world: it only erases. *)
Lemma clear_erased (this : ref) (w : World) :
  erased (λ _, True) w (world_of (clear this w)).
Proof.
  unfold clear. rewrite bind_eq.
  destruct (pure_doClear this w) as [[go ->]|[e ->]]; [|apply erased_refl].
  destruct go; [|apply erased_refl].
  rewrite (bind_ret get _ w w w) by done.
  rewrite world_of_then_ret. apply eraseBlocks_erased_any.
Qed.

(** [clear] on a block of the grid: it runs [destroy] only on blocks of
    the grid that have the colour of the block. *)
Lemma clear_erased_target (this : ref) (w : World) :
  in_grid w this → erased (target w this) w (world_of (clear this w)).
Proof.
  intros Hin. unfold clear. rewrite bind_eq.
  destruct (pure_doClear this w) as [[go ->]|[e ->]]; [|apply erased_refl].
  destruct go; [|apply erased_refl].
  rewrite (bind_ret get _ w w w) by done.
  rewrite world_of_then_ret. by apply eraseBlocks_erased.
Qed.

(** The flood fill that [clear] performs when the gate is passed. *)
Lemma clear_flood (w : World) (this : ref) (c0 : Coord) :
  consistent w → occupant w c0 = Some this → interior w this c0 →
  any_square w this c0 = true →
  ∃ w' l, clear this w = Ret tt w' ∧
          visiting w this this c0 (neighbours c0) w' l.
Proof.
  intros Hcons Hthis Hint Hsq.
  assert (Hc : coord (heap w this) = Some c0) by by apply Hcons.
  destruct (Hint c0 (reach_refl _ _ _)) as [Hy0 Hy1].
  assert (Hy : has_row w (cy c0)) by (unfold has_row in *; lia).
  unfold clear. rewrite bind_eq, (doClear_rows w this c0) by done.
  rewrite Hsq. rewrite (bind_ret get _ w w w) by done. rewrite bind_eq.
  pose proof (eraseBlocks_flood (enough_fuel w) this this c0 [] w) as Hpost.
  pose proof (eraseBlocks_terminated (enough_fuel w) this this [] w
                (this :: grid_refs (contents w))) as Hterm.
  destruct (eraseBlocks _ _ _ _ _) as [D' w'|e w'|w'].
  - destruct Hpost as (l & _ & Hv); [|by exists w', l].
    unfold erase_pre. split_and!; try done.
    intros r Hr. by apply elem_of_nil in Hr.
  - destruct Hpost. unfold erase_pre. split_and!; try done.
    intros r Hr. by apply elem_of_nil in Hr.
  - destruct Hterm.
    + apply NoDup_nil_2.
    + apply list_subseteq_nil.
    + apply list_elem_of_here.
    + intros c r Hr. apply list_elem_of_further. by eapply occupant_grid_refs.
    + unfold enough_fuel. simpl. lia.
Qed.


(** Without a formed square [clear] returns and nothing has changed. *)
Lemma clear_no_square (w : World) (this : ref) (c : Coord) :
  coord (heap w this) = Some c →
  has_row w (cy c - 1) → has_row w (cy c + 1) →
  any_square w this c = false → clear this w = Ret tt w.
Proof.
  intros Hc Hy0 Hy1 Hsq.
  assert (Hy : has_row w (cy c)) by (unfold has_row in *; lia).
  unfold clear. rewrite bind_eq, (doClear_rows w this c) by done.
  by rewrite Hsq.
Qed.


(** C4, as it holds.  In a consistent grid, when [clear] runs on a
    placed block whose colour is not the unbreakable colour, however it
    ends: [destroy] runs only on blocks of the colour of that block,
    every cell that held an unbreakable block still holds it, no block
    changed colour, and a 2x2 square with an unbreakable block in one of
    its cells is not a formed square. *)
Theorem clear_spares_unbreakable (config : Config) (w : World) (this : ref) :
  consistent w → in_grid w this →
  color (heap w this) ≠ color_unbreakable config →
  let w' := world_of (clear this w) in
  (∃ l, effects w' = effects w ++ (TweenShrink <$> l)
      ∧ Forall (λ r, color (heap w r) = color (heap w this)) l
      ∧ Forall (λ r, color (heap w r) ≠ color_unbreakable config) l)
  ∧ (∀ c r, occupant w c = Some r →
       color (heap w r) = color_unbreakable config →
       occupant w' c = Some r)
  ∧ heap w' = heap w
  ∧ (∀ c c' r, c' ∈ [c; move 0 1 c; move 1 0 c; move 1 1 c] →
       occupant w c' = Some r →
       color (heap w r) = color_unbreakable config →
       square w this c = false).
Proof.
  intros Hcons Hin Hcol. cbv zeta.
  pose proof (clear_erased_target this w Hin)
    as (Hh & _ & _ & l & Hef & Hl & Hcells).
  split_and!; try done.
  - exists l. split_and!; [done| |].
    + eapply Forall_impl; [exact Hl|]. by intros r [? _].
    + eapply Forall_impl; [exact Hl|]. intros r [Hr _].
      unfold same_color in Hr. simpl. congruence.
  - intros c r Hr Hru.
    destruct (Hcells c) as [->|[_ (r' & Hr'l & Hr'c)]]; [done|].
    rewrite Forall_forall in Hl. destruct (Hl r' Hr'l) as [Hsame [c' Hc']].
    pose proof (Hcons _ _ Hc') as Hcoord.
    assert (c' = c) as -> by congruence.
    assert (r' = r) as -> by congruence.
    unfold same_color in Hsame. congruence.
  - intros c c' r Hc' Hr Hru.
    assert (matchingb w this c' = false) as Hm.
    { unfold matchingb. rewrite Hr. simpl.
      apply bool_decide_eq_false. congruence. }
    unfold square.
    rewrite !elem_of_cons in Hc'.
    destruct Hc' as [->|[->|[->|[->|Hnil]]]];
      [rewrite Hm..|by apply elem_of_nil in Hnil];
      by rewrite ?andb_false_r.
Qed.

(** ** Consistency of the grid with the blocks *)

Lemma erased_consistent (P : ref → Prop) (w w' : World) :
  erased P w w' → consistent w → consistent w'.
Proof.
  intros Hw Hcons c r Hr. rewrite (erased_heap _ _ _ Hw).
  apply Hcons. by eapply erased_occupant.
Qed.

Lemma update_occupant (r : ref) (f : t → t) (w : World) (c : Coord) :
  occupant (update r f w) c = occupant w c.
Proof. reflexivity. Qed.

(** [drop] with its row in the grid: the slot refers to the block and
    the block records the slot; nothing else moves. *)
Lemma drop_row (r : ref) (c : Coord) (noAnimate : bool) (w : World) :
  has_row w (cy c) →
  ∃ w', drop r c noAnimate w = Ret tt w'
    ∧ (∀ c', occupant w' c' = if decide (c' = c) then Some r else occupant w c')
    ∧ coord (heap w' r) = Some c
    ∧ color (heap w' r) = color (heap w r)
    ∧ (∀ r', r' ≠ r → heap w' r' = heap w r')
    ∧ next w' = next w.
Proof.
  intros Hy.
  destruct (write_row w (cx c) (cy c) (Some r) Hy)
    as (w1 & Hw & Hh & Hn & He & Hl & Hocc).
  unfold drop. rewrite bind_eq, Hw.
  rewrite (bind_ret get _ w1 w1 w1) by done.
  assert (Hc : ∀ c', (if decide (c' = mkCoord (cx c) (cy c)) then Some r
                      else occupant w c')
                     = if decide (c' = c) then Some r else occupant w c').
  { intros c'. by destruct c. }
  destruct (negb noAnimate && visible (heap w1 r)); eexists;
    (split; [reflexivity|]); simpl; rewrite ?decide_True by done;
    (split_and!; [intros c'; by rewrite <- Hc, <- Hocc|done|by rewrite Hh|
                  intros r' Hr'; rewrite ?decide_False by done; by rewrite Hh|
                  done]).
Qed.

Lemma drop_no_row (r : ref) (c : Coord) (noAnimate : bool) (w : World) :
  ¬ has_row w (cy c) → drop r c noAnimate w = Throw TypeError w.
Proof. intros Hy. unfold drop. by rewrite bind_eq, write_no_row. Qed.

Lemma drop_consistent (r : ref) (c : Coord) (noAnimate : bool) (w : World) :
  consistent w → ¬ in_grid w r →
  consistent (world_of (drop r c noAnimate w)).
Proof.
  intros Hcons Hr. destruct (decide (has_row w (cy c))) as [Hy|Hy];
    [|by rewrite drop_no_row].
  destruct (drop_row r c noAnimate w Hy) as (w' & -> & Hocc & Hc & _ & Hh & _).
  simpl. intros c' r'. rewrite Hocc. case_decide as Hcc.
  - intros [= <-]. by rewrite Hcc.
  - intros Hr'. rewrite Hh; [by apply Hcons|].
    intros ->. apply Hr. by exists c'.
Qed.

Lemma dropComplete_consistent (r : ref) (w : World) :
  consistent w → consistent (world_of (dropComplete r w)).
Proof.
  intros Hcons. unfold dropComplete. rewrite bind_eq. simpl.
  eapply erased_consistent; [apply clear_erased|].
  intros c r' Hr'. simpl. case_decide as E; [subst r'|]; by apply Hcons.
Qed.

Lemma run_op_consistent (o : op) (w : World) :
  consistent w → in_step w o → consistent (world_of (run_op o w)).
Proof.
  intros Hcons Hstep. destruct o as [r c n|r|r d|r|r]; simpl in *.
  - by apply drop_consistent.
  - by apply dropComplete_consistent.
  - done.
  - eapply erased_consistent; [apply clear_erased|done].
  - eapply erased_consistent; [by apply (destroy_erased (λ _, True))|done].
Qed.

(** [slide] on a block of a consistent grid, with a direction it accepts. *)
Lemma slide_placed (w : World) (r : ref) (c : Coord) (d : string) :
  consistent w → occupant w c = Some r → toLowerCase d ∈ directions →
  ∃ c', slide r d w = Ret tt (update r (set_coord (Some c')) w)
        ∧ adjacent c c'.
Proof.
  intros Hcons Hr Hd. pose proof (Hcons _ _ Hr) as Hc.
  unfold slide, directions in *. rewrite !elem_of_cons in Hd.
  destruct Hd as [->|[->|[->|[->|Hd]]]]; [..|by apply elem_of_nil in Hd];
    simpl; rewrite (slide_step _ _ d _ _ _ Hc);
    eexists; (split; [reflexivity|]); unfold adjacent; tauto.
Qed.

Lemma adjacent_ne (c c' : Coord) : adjacent c c' → c' ≠ c.
Proof.
  destruct c as [x y]. unfold adjacent, move. simpl.
  intros [->|[->|[->| ->]]] [= ? ?]; lia.
Qed.

(** C5, as it holds.  Starting from a consistent grid, after each
    operation of a sequence of drops of blocks that the grid does not
    reference yet, drop completions, clears and destroys, every slot
    that holds a block has that block's coordinate as its key.  [slide]
    changes the coordinate of the block and leaves the grid as it is:
    the slot that holds a placed block is then one cell away from the
    block's coordinate. *)
Theorem operations_keep_grid_consistent :
  (∀ ops w, consistent w → all_in_step w ops → Forall consistent (run ops w))
  ∧ (∀ w r c d,
       consistent w → occupant w c = Some r → toLowerCase d ∈ directions →
       let w' := world_of (slide r d w) in
       occupant w' c = Some r
       ∧ contents w' = contents w
       ∧ ∃ c', coord (heap w' r) = Some c' ∧ adjacent c c' ∧ c' ≠ c).
Proof.
  split.
  - induction ops as [|o ops IH]; intros w Hcons Hops; simpl; [constructor|].
    destruct Hops as [Ho Hops].
    pose proof (run_op_consistent o w Hcons Ho) as Hw'.
    constructor; [done|]. by apply IH.
  - intros w r c d Hcons Hr Hd. cbv zeta.
    destruct (slide_placed w r c d Hcons Hr Hd) as (c' & -> & Hadj).
    simpl. rewrite decide_True by done. split_and!; try done.
    exists c'. split_and!; [done|done|by apply adjacent_ne].
Qed.

(** ** Example grids are consistent *)

Lemma new_consistent (config : Config) (d : string) (p o : Z)
    (col : option Z) (w : World) :
  consistent w ∧ allocated w →
  ∃ r w', new config d p o col w = Ret r w'
    ∧ (consistent w' ∧ allocated w') ∧ ¬ in_grid w' r ∧ (r < next w')%nat
    ∧ contents w' = contents w
    ∧ heap w' r = new_fields config d p o col.
Proof.
  intros [Hcons Halloc]. eexists _, _. split; [reflexivity|].
  simpl. split_and!.
  - intros c r Hr. simpl. pose proof (Halloc c r Hr).
    rewrite decide_False by lia. by apply Hcons.
  - intros c r Hr. pose proof (Halloc c r Hr). simpl. lia.
  - intros [c Hc]. pose proof (Halloc c _ Hc). lia.
  - lia.
  - done.
  - by rewrite decide_True.
Qed.

Lemma place_consistent (col : option Z) (x y : Z) (w : World) :
  consistent w ∧ allocated w →
  consistent (world_of (place col x y w))
  ∧ allocated (world_of (place col x y w)).
Proof.
  intros Hw. unfold place.
  destruct (new_consistent scenario_config "top" 0 0 col w Hw)
    as (r & w1 & Hnew & [Hcons Halloc] & Hr & Hlt & _).
  rewrite bind_eq, Hnew. rewrite bind_eq.
  pose proof (drop_consistent r (mkCoord x y) true w1 Hcons Hr) as Hd.
  destruct (decide (has_row w1 y)) as [Hy|Hy].
  - destruct (drop_row r (mkCoord x y) true w1 Hy)
      as (w2 & Hdrop & Hocc & _ & _ & _ & Hn).
    rewrite Hdrop in *. simpl in *. split; [done|].
    intros c r'. rewrite Hocc, Hn. case_decide; [by intros [= <-]|].
    apply Halloc.
  - rewrite drop_no_row in * by done. done.
Qed.

Lemma empty_world_consistent (h : nat) :
  consistent (empty_world h) ∧ allocated (empty_world h).
Proof.
  assert (∀ c, occupant (empty_world h) c = None) as Hnone.
  { intros c. unfold occupant, cell, js_index. simpl. case_decide; [|done].
    destruct (replicate h ∅ !! Z.to_nat (cy c)) as [row|] eqn:E; [|done].
    apply lookup_replicate in E as [-> _]. done. }
  split; intros c r; by rewrite Hnone.
Qed.

Lemma then_consistent {A B} (m : M A) (k : A → M B) (w : World) :
  (consistent (world_of (m w)) ∧ allocated (world_of (m w))) →
  (∀ a w1, consistent w1 ∧ allocated w1 →
     consistent (world_of (k a w1)) ∧ allocated (world_of (k a w1))) →
  consistent (world_of ((m ≫= k) w)) ∧ allocated (world_of ((m ≫= k) w)).
Proof.
  intros Hm Hk. rewrite bind_eq.
  destruct (m w) as [a w1|e w1|w1]; simpl in *; [by apply Hk|done..].
Qed.

(** Blocks away from the first and the last row: every cell reached has
    a row above and a row below. *)
Lemma interior_of_rows (w : World) (this : ref) (c0 : Coord) (r0 : ref) :
  (∀ c r, occupant w c = Some r →
     has_row w (cy c - 1) ∧ has_row w (cy c + 1)) →
  occupant w c0 = Some r0 → interior w this c0.
Proof.
  intros Hrows Hc0 c.
  destruct 1 as [|c1 c2 _ _ (r & Hr & _)]; by eapply Hrows.
Qed.

Lemma border_rows_empty (w : World) (mid : list (gmap Z ref)) :
  contents w = ∅ :: mid ++ [∅] →
  ∀ c r, occupant w c = Some r →
    has_row w (cy c - 1) ∧ has_row w (cy c + 1).
Proof.
  intros Hw c r. unfold occupant, cell, has_row. rewrite Hw.
  destruct (js_index _ (cy c)) as [row|] eqn:Hrow; [|done].
  simpl. intros Hr.
  apply js_index_Some in Hrow as [Hy Hrow].
  rewrite length_app. simpl.
  destruct (Z.to_nat (cy c)) as [|n] eqn:Hn.
  { simpl in Hrow. injection Hrow as <-. by rewrite lookup_empty in Hr. }
  simpl in Hrow.
  destruct (decide (n < length mid)%nat) as [Hlt|Hge]; [lia|].
  rewrite lookup_app_r in Hrow by lia.
  destruct (n - length mid)%nat as [|k]; simpl in Hrow; [|done].
  injection Hrow as <-. by rewrite lookup_empty in Hr.
Qed.

End BlockFacts.

Ltac example_consistent :=
  lazymatch goal with
  | |- Grid.consistent (Block.world_of ((_ ≫= _) _)) ∧ _ =>
      apply then_consistent; [example_consistent|intros ? ? ?; example_consistent]
  | |- Grid.consistent (Block.world_of (place _ _ _ _)) ∧ _ =>
      apply place_consistent;
      first [assumption|apply empty_world_consistent]
  end.

Lemma one_block_consistent :
  Grid.consistent one_block ∧ Grid.allocated one_block.
Proof. unfold one_block. example_consistent. Qed.

Lemma l_shape_consistent : Grid.consistent l_shape ∧ Grid.allocated l_shape.
Proof. unfold l_shape. example_consistent. Qed.

Lemma l_shape_interior (this : ref) (c0 : Coord) (r0 : ref) :
  Grid.occupant l_shape c0 = Some r0 → Grid.interior l_shape this c0.
Proof.
  apply interior_of_rows.
  apply (border_rows_empty l_shape (take 3 (tail (Block.contents l_shape)))).
  vm_compute. reflexivity.
Qed.







Lemma clear_spares_unbreakable_witness :
  Grid.consistent l_shape ∧ Grid.in_grid l_shape 0%nat ∧
  Block.color (Block.heap l_shape 0%nat) ≠ color_unbreakable scenario_config ∧
  (∀ c r, Grid.occupant l_shape c = Some r →
     Block.color (Block.heap l_shape r) = color_unbreakable scenario_config →
     Grid.occupant (Block.world_of (Block.clear 0%nat l_shape)) c = Some r).
Proof.
  assert (H1 : Grid.consistent l_shape) by apply l_shape_consistent.
  assert (H2 : Grid.in_grid l_shape 0%nat)
    by (exists (mkCoord 1 1); vm_compute; reflexivity).
  assert (H3 : Block.color (Block.heap l_shape 0%nat)
               ≠ color_unbreakable scenario_config)
    by (vm_compute; discriminate).
  destruct (clear_spares_unbreakable scenario_config l_shape 0%nat H1 H2 H3)
    as (_ & H4 & _).
  exact (conj H1 (conj H2 (conj H3 H4))).
Defined.

(** C4 as stated fails when [clear] runs on an unbreakable block: the
    four blocks of [unbreakable_square] carry the unbreakable colour,
    and [clear] on one of them destroys all four. *)
Lemma unbreakable_square_is_cleared :
  Forall (λ r, Block.color (Block.heap unbreakable_square r)
               = color_unbreakable scenario_config) [0; 1; 2; 3]%nat ∧
  (∃ w', Block.clear 0%nat unbreakable_square = Block.Ret tt w'
     ∧ Grid.destroyed_of (Block.effects w') = [0; 2; 3; 1]%nat
     ∧ Block.grid_refs (Block.contents w') = []).
Proof.
  split; [repeat constructor; vm_compute; reflexivity|].
  exists (Block.world_of (Block.clear 0%nat unbreakable_square)).
  split; [vm_compute; reflexivity|]. split; vm_compute; reflexivity.
Qed.

Lemma operations_keep_grid_consistent_witness :
  Grid.consistent l_shape ∧ Grid.all_in_step l_shape l_shape_ops ∧
  Forall Grid.consistent (Grid.run l_shape_ops l_shape).
Proof.
  assert (H1 : Grid.consistent l_shape) by apply l_shape_consistent.
  assert (H2 : Grid.all_in_step l_shape l_shape_ops).
  { unfold l_shape_ops. repeat split.
    intros [c Hc]. apply l_shape_consistent in Hc.
    replace (Block.next l_shape) with 7%nat in Hc by (vm_compute; reflexivity).
    lia. }
  exact (conj H1 (conj H2
    (proj1 operations_keep_grid_consistent l_shape_ops l_shape H1 H2))).
Defined.

(** C5 as stated fails for [slide]: [one_block] is consistent, and after
    [slide("right")] the slot (1, 1) still holds the block, whose
    coordinate is now (2, 1). *)
Lemma slide_leaves_grid_behind :
  Grid.consistent one_block ∧
  ¬ Forall Grid.consistent (Grid.run [Grid.Slide 0%nat "right"] one_block).
Proof.
  split; [apply one_block_consistent|].
  intros H. apply Forall_cons_1 in H as [H _].
  assert (Hocc : Grid.occupant
            (Block.world_of (Block.slide 0%nat "right" one_block))
            (mkCoord 1 1) = Some 0%nat) by (vm_compute; reflexivity).
  specialize (H (mkCoord 1 1) 0%nat Hocc). vm_compute in H. discriminate H.
Qed.



(** * The score state machine *)

Section ScoreFacts.
Import Score.


Variable config : Config.

Lemma scan_le i cur k : scan config i cur = Some k → (0 < k ≤ i)%nat.
Proof.
  induction i as [|j IH]; simpl; [done|].
  destruct (checkpoints config !! j) as [cp|]; [destruct (geb cur cp)|];
    intros H; try (injection H as <-; lia); apply IH in H; lia.
Qed.

Lemma scan_NaN i : scan config i NaN = None.
Proof.
  induction i as [|j IH]; simpl; [done|].
  by destruct (checkpoints config !! j).
Qed.



(** What [update] leaves in each field. *)
Lemma update_fields c s :
  let cur := add (current s) (Math_floor (Math_pow c (points config !! level s))) in
  let txt := ("Level: " ++ pretty (level s + 1)%nat ++ newline ++
              "Score: " ++ show cur)%string in
  let l := calcLevel config (mk txt cur (level s) (calls s)) in
  update config c s =
    if (level s <? l)%nat
    then newLevel config (mk txt cur l (calls s))
    else Done (mk txt cur (level s) (calls s)).
Proof. reflexivity. Qed.

Lemma newLevel_fields s :
  let s' := state_of (newLevel config s) in
  board s' = board s ∧ current s' = current s ∧ level s' = level s.
Proof.
  unfold newLevel. simpl.
  by destruct (color_available config !! level s).
Qed.

Lemma newLevel_calls s palette :
  color_available config !! level s = Some palette →
  newLevel config s =
    Done (mk (board s) (current s) (level s)
             (calls s ++ transition (level s) palette)).
Proof.
  intros H. unfold newLevel. simpl. rewrite H. unfold call. simpl.
  by rewrite <- !app_assoc.
Qed.

Lemma update_level c s :
  let cur := add (current s) (Math_floor (Math_pow c (points config !! level s))) in
  let l := calcLevel config (set_current cur s) in
  current (state_of (update config c s)) = cur ∧
  level (state_of (update config c s)) = Nat.max (level s) l.
Proof.
  cbv zeta. rewrite update_fields. cbv zeta.
  set (cur := add _ _). set (txt := (_ ++ _)%string).
  change (calcLevel config (mk txt cur (level s) (calls s)))
    with (calcLevel config (set_current cur s)).
  set (l := calcLevel _ _).
  pose proof (newLevel_fields (mk txt cur l (calls s))) as (_ & Hc & Hl).
  destruct (Nat.ltb_spec (level s) l); simpl; [|split; [done|lia]].
  rewrite Hc, Hl. simpl. split; [done|lia].
Qed.




Lemma settled_update c s : settled config (state_of (update config c s)).
Proof.
  rewrite update_fields. cbv zeta.
  set (cur := add _ _). set (txt := (_ ++ _)%string).
  set (l := calcLevel _ _).
  destruct (Nat.ltb_spec (level s) l) as [Hlt|Hge].
  - pose proof (newLevel_fields (mk txt cur l (calls s))) as (_ & Hc & Hl).
    unfold settled, calcLevel. rewrite Hc, Hl. simpl.
    unfold l, calcLevel. simpl.
    destruct (scan config _ cur); simpl; lia.
  - exact Hge.
Qed.






(** C8. A level transition calls, in this order: the generator with the
    new level, the music with the new track, the background with the
    first colour of the new palette, then [breakable] on the centre
    quad, [clearAll] and [resetMiddle] on the grid, and last [redraw],
    [toCenter] and [unbreakable] on the centre quad; [update] runs this
    once when the recomputed level is higher, and not otherwise. *)
Theorem newLevel_order :
  (∀ s palette,
     color_available config !! level s = Some palette →
     newLevel config s =
       Done (mk (board s) (current s) (level s)
               (calls s ++
                [ SetLevel (level s);
                  MusicPlay ("background" ++ pretty (level s + 1)%nat);
                  BackgroundNewColor (palette !! 0%nat);
                  CenterBreakable; GridClearAll; GridResetMiddle;
                  CenterRedraw; CenterToCenter; CenterUnbreakable ])))
  ∧ (∀ c s palette,
       let s' := state_of (update config c s) in
       color_available config !! level s' = Some palette →
       calls s' =
         calls s ++
         (if (level s <? level s')%nat then transition (level s') palette
          else [])).
Proof.
  split; [intros s palette; apply newLevel_calls|].
  intros c s palette. cbv zeta. rewrite update_fields. cbv zeta.
  set (cur := add _ _). set (txt := (_ ++ _)%string). set (l := calcLevel _ _).
  destruct (Nat.ltb_spec (level s) l) as [Hlt|Hge].
  - pose proof (newLevel_fields (mk txt cur l (calls s))) as (_ & _ & ->).
    simpl. intros Hpal.
    rewrite newLevel_calls with (palette := palette) by done. simpl.
    by destruct (Nat.ltb_spec (level s) l); [|lia].
  - simpl. intros _. by rewrite Nat.ltb_irrefl, app_nil_r.
Qed.

End ScoreFacts.





Lemma newLevel_order_witness :
  color_available scenario_config !! Score.level scenario_state
    = Some [3; 4] ∧
  Score.newLevel scenario_config scenario_state =
    Score.Done
      (Score.mk (Score.board scenario_state) (Score.current scenario_state)
         1%nat
         (Score.calls scenario_state ++
          [ Score.SetLevel 1; Score.MusicPlay "background2";
            Score.BackgroundNewColor (Some 3);
            Score.CenterBreakable; Score.GridClearAll;
            Score.GridResetMiddle; Score.CenterRedraw;
            Score.CenterToCenter; Score.CenterUnbreakable ])).
Proof.
  split; [reflexivity|].
  exact (proj1 (newLevel_order scenario_config) scenario_state [3; 4] eq_refl).
Defined.

(** * More on blocks *)

Section BlockExtras.
Import Block Grid.

(** What [drop] leaves when the row of the target exists. *)
Lemma drop_result (this : ref) (c : Coord) (noAnimate : bool) (w : World) :
  let animate := negb noAnimate && visible (heap w this) in
  has_row w (cy c) →
  ∃ w', drop this c noAnimate w = Ret tt w'
    ∧ occupant w' c = Some this
    ∧ (∀ c', c' ≠ c → occupant w' c' = occupant w c')
    ∧ coord (heap w' this) = Some c
    ∧ falling (heap w' this) = animate || falling (heap w this)
    ∧ effects w' = effects w ++ (if animate then [TweenDrop this c] else [])
    ∧ color (heap w' this) = color (heap w this)
    ∧ visible (heap w' this) = visible (heap w this)
    ∧ manualPosition (heap w' this) = manualPosition (heap w this)
    ∧ (∀ r, r ≠ this → heap w' r = heap w r).
Proof.
  cbv zeta. intros Hy.
  destruct (write_row w (cx c) (cy c) (Some this) Hy)
    as (w1 & Hw & Hh & Hn & He & Hl & Hocc).
  unfold drop. rewrite bind_eq, Hw.
  rewrite (bind_ret get _ w1 w1 w1) by done. rewrite Hh.
  assert (Hc : ∀ c', occupant w1 c'
                     = if decide (c' = c) then Some this else occupant w c').
  { intros c'. rewrite Hocc. by destruct c. }
  assert (Hgrid : ∀ w', contents w' = contents w1 →
            occupant w' c = Some this
            ∧ ∀ c', c' ≠ c → occupant w' c' = occupant w c').
  { intros w' Hw'.
    assert (∀ c', occupant w' c' = occupant w1 c') as Hsame
      by (intros c'; unfold occupant; by rewrite Hw').
    rewrite Hsame, Hc, decide_True by done. split; [done|].
    intros c' Hc'. by rewrite Hsame, Hc, decide_False. }
  destruct (negb noAnimate && visible (heap w this)); eexists;
    (split; [reflexivity|]);
    (split; [by apply Hgrid|]); (split; [by apply Hgrid|]);
    simpl; rewrite ?decide_True by done; rewrite ?Hh, ?He, ?app_nil_r; simpl;
    (split_and!; try done; intros r Hr; by rewrite ?decide_False by done).
Qed.

(** X1. [drop] writes the grid before anything else: when the row of
    the target exists, the slot holds the block and the block records
    the slot, whatever the slot held before and whether or not the drop
    is animated; the tween is started, and [falling] set, only for a
    block that is visible and a drop that is not told to skip the
    animation.  When the row does not exist, [drop] throws and nothing
    has changed: the block has no coordinate from this call. *)
Theorem drop_registers_before_animating (this : ref) (c : Coord)
    (noAnimate : bool) (w : World) :
  let animate := negb noAnimate && visible (heap w this) in
  (has_row w (cy c) →
     ∃ w', drop this c noAnimate w = Ret tt w'
       ∧ occupant w' c = Some this
       ∧ (∀ c', c' ≠ c → occupant w' c' = occupant w c')
       ∧ coord (heap w' this) = Some c
       ∧ falling (heap w' this) = animate || falling (heap w this)
       ∧ effects w' = effects w ++ (if animate then [TweenDrop this c] else [])
       ∧ color (heap w' this) = color (heap w this)
       ∧ visible (heap w' this) = visible (heap w this)
       ∧ (∀ r, r ≠ this → heap w' r = heap w r))
  ∧ (¬ has_row w (cy c) → drop this c noAnimate w = Throw TypeError w).
Proof.
  cbv zeta. split; [|apply drop_no_row].
  intros Hy.
  destruct (drop_result this c noAnimate w Hy)
    as (w' & H1 & H2 & H3 & H4 & H5 & H6 & H7 & H8 & _ & H9).
  exists w'. by split_and!.
Qed.

Lemma destroy_placed (this : ref) (c : Coord) (w : World) :
  coord (heap w this) = Some c → has_row w (cy c) →
  ∃ w', destroy this w = Ret tt w'
    ∧ heap w' = heap w ∧ next w' = next w
    ∧ effects w' = effects w ++ [TweenShrink this]
    ∧ length (contents w') = length (contents w)
    ∧ ∀ c', occupant w' c' = if decide (c' = c) then None else occupant w c'.
Proof.
  intros Hc Hy. pose proof (destroy_cases this w) as H. cbv zeta in H.
  by rewrite Hc, decide_True in H.
Qed.

(** X2. [drop] does not look at what the slot holds, and [destroy]
    empties the slot at the block's coordinate: dropping a block and
    destroying it leaves its cell empty and every other cell as it was,
    so the grid is as before when the cell was empty, and a block that
    the drop had overwritten is out of the grid. *)
Theorem drop_then_destroy_empties_the_cell (this : ref) (c : Coord)
    (noAnimate : bool) (w : World) :
  has_row w (cy c) →
  ∃ w2, (drop this c noAnimate;; destroy this) w = Ret tt w2
    ∧ occupant w2 c = None
    ∧ (∀ c', c' ≠ c → occupant w2 c' = occupant w c')
    ∧ (occupant w c = None → ∀ c', occupant w2 c' = occupant w c')
    ∧ coord (heap w2 this) = Some c.
Proof.
  intros Hy.
  destruct (drop_row this c noAnimate w Hy)
    as (w1 & Hdrop & Hocc1 & Hc1 & _ & _ & _).
  assert (has_row w1 (cy c)) as Hy1.
  { apply (occupant_has_row w1 c this). by rewrite Hocc1, decide_True. }
  destruct (destroy_placed this c w1 Hc1 Hy1)
    as (w2 & Hd & Hh & _ & _ & _ & Hocc2).
  exists w2. rewrite bind_eq, Hdrop. split; [done|].
  assert (Hother : ∀ c', c' ≠ c → occupant w2 c' = occupant w c').
  { intros c' Hc'. by rewrite Hocc2, Hocc1, !decide_False. }
  split_and!; [by rewrite Hocc2, decide_True|done| |by rewrite Hh].
  intros Hempty c'. destruct (decide (c' = c)) as [->|Hne]; [|by apply Hother].
  by rewrite Hocc2, decide_True.
Qed.

(** X3. [destroy] leaves the block its coordinate, and only
    [eraseBlocks] guards against a second call: [destroy] on a block
    that was destroyed before runs again, starts another shrink tween
    and empties the slot at the old coordinate again, also when another
    block has been dropped there in between, which is then out of the
    grid while it still records the slot. *)
Theorem destroy_keeps_the_coordinate (this other : ref) (c : Coord)
    (noAnimate : bool) (w : World) :
  coord (heap w this) = Some c → has_row w (cy c) → other ≠ this →
  ∃ w1, destroy this w = Ret tt w1
    ∧ coord (heap w1 this) = Some c
    ∧ occupant w1 c = None
    ∧ (∃ w2, destroy this w1 = Ret tt w2
         ∧ effects w2 = effects w ++ [TweenShrink this; TweenShrink this]
         ∧ ∀ c', occupant w2 c' = occupant w1 c')
    ∧ (∃ w3, (drop other c noAnimate;; destroy this) w1 = Ret tt w3
         ∧ occupant w3 c = None
         ∧ coord (heap w3 other) = Some c).
Proof.
  intros Hc Hy Hne.
  destruct (destroy_placed this c w Hc Hy)
    as (w1 & Hd & Hh & _ & He & Hl & Hocc).
  assert (Hc1 : coord (heap w1 this) = Some c) by by rewrite Hh.
  assert (Hy1 : has_row w1 (cy c)) by (unfold has_row in *; by rewrite Hl).
  exists w1. split_and!; [done|done|by rewrite Hocc, decide_True| |].
  - destruct (destroy_placed this c w1 Hc1 Hy1)
      as (w2 & Hd2 & _ & _ & He2 & _ & Hocc2).
    exists w2. split_and!; [done|by rewrite He2, He, <- app_assoc|].
    intros c'. rewrite Hocc2, Hocc. by case_decide.
  - destruct (drop_row other c noAnimate w1 Hy1)
      as (w2 & Hdrop & Hocc2 & Hc2 & _ & Hh2 & _).
    assert (has_row w2 (cy c)) as Hy2.
    { apply (occupant_has_row w2 c other). by rewrite Hocc2, decide_True. }
    assert (coord (heap w2 this) = Some c) as Hc2'
      by (rewrite Hh2 by done; done).
    destruct (destroy_placed this c w2 Hc2' Hy2)
      as (w3 & Hd3 & Hh3 & _ & _ & _ & Hocc3).
    exists w3. rewrite bind_eq, Hdrop.
    split_and!; [done|by rewrite Hocc3, decide_True|by rewrite Hh3].
Qed.

(** X4. A block that has not been dropped has no coordinate, and the
    operations that need one throw a [TypeError]: [clear] and [slide]
    (with a direction it accepts) before they change anything,
    [destroy] after it has started the shrink tween; the grid is as it
    was in all three cases. *)
Theorem operations_need_a_coordinate (this : ref) (w : World) :
  coord (heap w this) = None →
  clear this w = Throw TypeError w
  ∧ destroy this w = Throw TypeError (emit (TweenShrink this) w)
  ∧ ∀ d, toLowerCase d ∈ directions → slide this d w = Throw TypeError w.
Proof.
  intros Hc. split_and!.
  - unfold clear, doClear, get_coord. rewrite !bind_eq. by rewrite Hc.
  - pose proof (destroy_cases this w) as H. cbv zeta in H. by rewrite Hc in H.
  - intros d Hd. unfold slide, directions in *.
    rewrite !elem_of_cons in Hd.
    destruct Hd as [->|[->|[->|[->|Hd]]]]; [..|by apply elem_of_nil in Hd];
      simpl; unfold get_coord; rewrite bind_eq; by rewrite Hc.
Qed.

(** X5. [clear] in any world, consistent or not, and wherever the
    block is: it ends, by returning or by throwing; no block is changed
    and no row added or removed; no cell gains an occupant; a cell that
    lost its occupant is the coordinate of a block on which [destroy]
    ran; and the only rendering calls are the shrink tweens of these
    blocks, after the calls made before. *)
Theorem clear_only_erases (this : ref) (w : World) :
  let w' := world_of (clear this w) in
  (∀ w'', clear this w ≠ OutOfFuel w'')
  ∧ heap w' = heap w
  ∧ length (contents w') = length (contents w)
  ∧ ∃ l, effects w' = effects w ++ (TweenShrink <$> l)
      ∧ ∀ c, occupant w' c = occupant w c
             ∨ (occupant w' c = None
                ∧ ∃ r, r ∈ l ∧ coord (heap w r) = Some c).
Proof.
  cbv zeta. split; [intros w''; apply clear_terminates|].
  destruct (clear_erased this w) as (Hh & _ & Hl & l & He & _ & Hc).
  split_and!; [done..|]. by exists l.
Qed.

Lemma any_square_needs_own_cell (w : World) (this : ref) (c : Coord) :
  matchingb w this c = false → any_square w this c = false.
Proof.
  intros Hc. unfold any_square, square.
  assert (move 1 0 (move (-1) 0 c) = c) as ->
    by (destruct c; unfold move; simpl; f_equal; lia).
  assert (move 0 1 (move 0 (-1) c) = c) as ->
    by (destruct c; unfold move; simpl; f_equal; lia).
  assert (move 1 1 (move (-1) (-1) c) = c) as ->
    by (destruct c; unfold move; simpl; f_equal; lia).
  rewrite Hc.
  repeat match goal with
         | |- context [matchingb w this ?c] => destruct (matchingb w this c)
         end; done.
Qed.

(** X6. In a consistent grid, for a placed block whose connected region
    lies on rows that have a row above and a row below, [clear] is
    idempotent: it returns, and a second [clear] on the same block
    returns with nothing changed, since the block keeps its coordinate
    and its own cell is empty, or no square was formed in the first
    place. *)
Theorem clear_twice_is_clear_once (w : World) (this : ref) (c0 : Coord) :
  consistent w → occupant w c0 = Some this → interior w this c0 →
  ∃ w', clear this w = Ret tt w' ∧ clear this w' = Ret tt w'.
Proof.
  intros Hcons Hthis Hint.
  assert (Hc : coord (heap w this) = Some c0) by by apply Hcons.
  destruct (Hint c0 (reach_refl _ _ _)) as [Hy0 Hy1].
  destruct (any_square w this c0) eqn:Hsq.
  - destruct (clear_flood w this c0 Hcons Hthis Hint Hsq)
      as (w' & l & Hclear & Hh & Hlen & _ & _ & Hbl & _ & Hocc & _).
    exists w'. split; [done|].
    apply (clear_no_square w' this c0);
      [by rewrite Hh|unfold has_row in *; by rewrite Hlen..|].
    apply any_square_needs_own_cell. unfold matchingb.
    rewrite Hocc. unfold without. rewrite Hthis. by rewrite decide_True.
  - exists w. split; by apply (clear_no_square w this c0).
Qed.

Lemma clear_keeps_other_colors (w : World) (this r : ref) (c : Coord) :
  consistent w → in_grid w this → occupant w c = Some r →
  color (heap w r) ≠ color (heap w this) →
  occupant (world_of (clear this w)) c = Some r.
Proof.
  intros Hcons Hin Hr Hcol.
  destruct (clear_erased_target this w Hin) as (_ & _ & _ & l & _ & Hl & Hcells).
  destruct (Hcells c) as [->|[_ (r' & Hr'l & Hr'c)]]; [done|].
  rewrite Forall_forall in Hl. destruct (Hl r' Hr'l) as [Hsame [c' Hc']].
  pose proof (Hcons _ _ Hc') as Hcoord.
  assert (c' = c) as -> by congruence.
  assert (r' = r) as -> by congruence.
  done.
Qed.

(** X7. [unbreakable] gives the block the unbreakable colour before it
    redraws it, so a visible block is drawn once in the new colour and
    an invisible one not at all; the coordinate, the grid and the other
    blocks stay as they are.  A placed block of a consistent grid is
    from then on left in its cell by the [clear] of every other placed
    block whose colour is not the unbreakable one. *)
Theorem unbreakable_protects_the_block (config : Config) (this : ref)
    (w : World) :
  ∃ w', unbreakable config this w = Ret tt w'
    ∧ color (heap w' this) = color_unbreakable config
    ∧ coord (heap w' this) = coord (heap w this)
    ∧ contents w' = contents w
    ∧ (∀ r, r ≠ this → heap w' r = heap w r)
    ∧ effects w' = effects w ++
        (if visible (heap w this)
         then [Draw this (color_unbreakable config)] else [])
    ∧ (consistent w →
       ∀ c trigger, occupant w c = Some this → in_grid w trigger →
         trigger ≠ this →
         color (heap w trigger) ≠ color_unbreakable config →
         occupant (world_of (clear trigger w')) c = Some this).
Proof.
  assert (Hprotect : ∀ w', contents w' = contents w →
            color (heap w' this) = color_unbreakable config →
            (∀ r, coord (heap w' r) = coord (heap w r)) →
            (∀ r, r ≠ this → heap w' r = heap w r) →
            consistent w →
            ∀ c trigger, occupant w c = Some this → in_grid w trigger →
              trigger ≠ this →
              color (heap w trigger) ≠ color_unbreakable config →
              occupant (world_of (clear trigger w')) c = Some this).
  { intros w' Hcont Hcol Hcoord Hother Hcons c trigger Hc [ct Hct] Hne Htrig.
    assert (∀ c0, occupant w' c0 = occupant w c0) as Hocc
      by (intros c0; unfold occupant; by rewrite Hcont).
    apply clear_keeps_other_colors.
    - intros c0 r0. rewrite Hocc, Hcoord. apply Hcons.
    - exists ct. by rewrite Hocc.
    - by rewrite Hocc.
    - rewrite Hcol, (Hother trigger Hne). congruence. }
  unfold unbreakable. rewrite bind_eq. simpl. rewrite bind_eq. simpl.
  rewrite decide_True by done. simpl.
  destruct (visible (heap w this)) eqn:Hv.
  - eexists. split; [reflexivity|]. simpl. rewrite !decide_True by done. simpl.
    split_and!; try done.
    + intros r Hr. by rewrite !decide_False by done.
    + apply Hprotect; simpl; try done.
      * by rewrite !decide_True.
      * intros r. repeat case_decide; by subst.
      * intros r Hr. by rewrite !decide_False by done.
  - eexists. split; [reflexivity|]. simpl. rewrite !decide_True by done. simpl.
    rewrite app_nil_r. split_and!; try done.
    + intros r Hr. by rewrite !decide_False by done.
    + apply Hprotect; simpl; try done.
      * by rewrite !decide_True.
      * intros r. repeat case_decide; by subst.
      * intros r Hr. by rewrite !decide_False by done.
Qed.

(** X8. [slide] in a direction and then in the opposite one brings the
    block back: its coordinate is what it was, and the grid, the
    rendering calls and the other blocks were never touched. *)
Theorem slide_there_and_back (this : ref) (c : Coord) (d d' : string)
    (w : World) :
  coord (heap w this) = Some c →
  (toLowerCase d, toLowerCase d') ∈ opposites →
  ∃ w', (slide this d;; slide this d') w = Ret tt w'
    ∧ coord (heap w' this) = Some c
    ∧ color (heap w' this) = color (heap w this)
    ∧ contents w' = contents w ∧ effects w' = effects w
    ∧ ∀ r, r ≠ this → heap w' r = heap w r.
Proof.
  intros Hc Hd. unfold opposites in Hd. rewrite !elem_of_cons in Hd.
  assert (Hback : ∀ dx dy,
            move (- dx) (- dy) (move dx dy c) = c).
  { intros dx dy. destruct c. unfold move. simpl. f_equal; lia. }
  assert (Hstep : ∀ dx dy w0 c0, coord (heap w0 this) = Some c0 →
            (c' ← get_coord this;
             modify (update this (set_coord (Some (move dx dy c'))))) w0
            = Ret tt (update this (set_coord (Some (move dx dy c0))) w0)).
  { intros dx dy w0 c0 H0. by rewrite (bind_ret _ _ _ _ _ (get_coord_eq _ _ _ H0)). }
  assert (Hres : ∀ dx dy,
    ∃ w', update this (set_coord (Some (move (- dx) (- dy) (move dx dy c))))
            (update this (set_coord (Some (move dx dy c))) w) = w'
      ∧ coord (heap w' this) = Some c
      ∧ color (heap w' this) = color (heap w this)
      ∧ contents w' = contents w ∧ effects w' = effects w
      ∧ ∀ r, r ≠ this → heap w' r = heap w r).
  { intros dx dy. eexists. split; [reflexivity|]. simpl.
    rewrite !decide_True by done. simpl. rewrite Hback.
    split_and!; try done. intros r Hr. by rewrite !decide_False. }
  destruct Hd as [[= Hd Hd']|[[= Hd Hd']|[[= Hd Hd']|[[= Hd Hd']|Hd]]]];
    [..|by apply elem_of_nil in Hd];
    rewrite bind_eq; unfold slide; rewrite Hd, Hd'; simpl.
  - rewrite (Hstep 0 (-1) w c Hc).
    erewrite (Hstep 0 1) by (simpl; by rewrite decide_True).
    destruct (Hres 0 (-1)) as (w' & <- & H). by eexists.
  - rewrite (Hstep 0 1 w c Hc).
    erewrite (Hstep 0 (-1)) by (simpl; by rewrite decide_True).
    destruct (Hres 0 1) as (w' & <- & H). by eexists.
  - rewrite (Hstep (-1) 0 w c Hc).
    erewrite (Hstep 1 0) by (simpl; by rewrite decide_True).
    destruct (Hres (-1) 0) as (w' & <- & H). by eexists.
  - rewrite (Hstep 1 0 w c Hc).
    erewrite (Hstep (-1) 0) by (simpl; by rewrite decide_True).
    destruct (Hres 1 0) as (w' & <- & H). by eexists.
Qed.

Lemma display_result (this : ref) (w : World) :
  ∃ w', display this w = Ret tt w'
    ∧ contents w' = contents w
    ∧ effects w' = effects w ++ [Draw this (color (heap w this))]
    ∧ visible (heap w' this) = true ∧ falling (heap w' this) = false
    ∧ color (heap w' this) = color (heap w this)
    ∧ coord (heap w' this) = coord (heap w this)
    ∧ manualPosition (heap w' this) = manualPosition (heap w this)
    ∧ ∀ r, r ≠ this → heap w' r = heap w r.
Proof.
  eexists. split; [reflexivity|]. simpl. rewrite !decide_True by done. simpl.
  split_and!; try done. intros r Hr. by rewrite !decide_False.
Qed.

(** X9. A block is animated only if it was displayed before it is
    dropped: a new block that is dropped right away is put in its slot
    with no tween and is not falling, so no completion ever runs its
    [clear]; a new block that is displayed and then dropped is in its
    slot at once, is drawn and then tweened, and is falling until the
    completion of the tween resets the flag. *)
Theorem drop_animates_only_after_display (config : Config) (d : string)
    (p o : Z) (col : option Z) (c : Coord) (w : World) :
  has_row w (cy c) →
  let r := next w in
  (∃ w', (r ← new config d p o col; drop r c false) w = Ret tt w'
     ∧ occupant w' c = Some r
     ∧ falling (heap w' r) = false
     ∧ effects w' = effects w)
  ∧ (∃ w', (r ← new config d p o col; display r;; drop r c false) w
           = Ret tt w'
     ∧ occupant w' c = Some r
     ∧ falling (heap w' r) = true
     ∧ effects w' = effects w ++
         [Draw r (color (new_fields config d p o col)); TweenDrop r c]
     ∧ falling (heap (world_of (dropComplete r w')) r) = false).
Proof.
  intros Hy. cbv zeta.
  set (w0 := mkWorld (λ r', if decide (r' = next w)
                            then new_fields config d p o col else heap w r')
                     (S (next w)) (contents w) (effects w)).
  assert (Hnew : new config d p o col w = Ret (next w) w0) by done.
  assert (Hy0 : has_row w0 (cy c)) by done.
  assert (Hr0 : heap w0 (next w) = new_fields config d p o col)
    by (simpl; by rewrite decide_True).
  split.
  - rewrite bind_eq, Hnew.
    destruct (drop_result (next w) c false w0 Hy0)
      as (w' & Hd & Hocc & _ & _ & Hf & He & _).
    rewrite Hr0 in Hf, He. simpl in Hf, He. rewrite app_nil_r in He.
    exists w'. by split_and!.
  - rewrite bind_eq, Hnew.
    destruct (display_result (next w) w0)
      as (w1 & Hdis & Hcont & He1 & Hv1 & Hf1 & _).
    rewrite bind_eq, Hdis.
    assert (Hy1 : has_row w1 (cy c)) by (unfold has_row; by rewrite Hcont).
    destruct (drop_result (next w) c false w1 Hy1)
      as (w' & Hd & Hocc & _ & _ & Hf & He & _).
    rewrite Hv1 in Hf, He. simpl in Hf, He.
    exists w'. split_and!; try done.
    + rewrite He, He1, Hr0. simpl. by rewrite <- app_assoc.
    + unfold dropComplete. rewrite bind_eq. simpl.
      rewrite (erased_heap _ _ _ (clear_erased _ _)). simpl.
      by rewrite decide_True.
Qed.

(** X10. [positionAt] puts the block in the slot without a tween and
    marks its position as manual; a visible block is redrawn and, by
    that, no longer falling, while an invisible one keeps its flags. *)
Theorem positionAt_places_without_animation (this : ref) (c : Coord)
    (w : World) :
  has_row w (cy c) →
  ∃ w', positionAt this c w = Ret tt w'
    ∧ occupant w' c = Some this
    ∧ (∀ c', c' ≠ c → occupant w' c' = occupant w c')
    ∧ coord (heap w' this) = Some c
    ∧ manualPosition (heap w' this) = true
    ∧ effects w' = effects w ++
        (if visible (heap w this)
         then [Draw this (color (heap w this))] else [])
    ∧ falling (heap w' this) =
        (if visible (heap w this) then false else falling (heap w this)).
Proof.
  intros Hy. unfold positionAt. rewrite bind_eq. simpl.
  set (w0 := update this (set_manualPosition true) w).
  assert (Hy0 : has_row w0 (cy c)) by done.
  assert (H0 : heap w0 this = set_manualPosition true (heap w this))
    by (simpl; by rewrite decide_True).
  destruct (drop_result this c true w0 Hy0)
    as (w1 & Hd & Hocc & Hoth & Hc & Hf & He & Hcol & Hv & Hm & _).
  rewrite H0 in Hf, He, Hcol, Hv, Hm. simpl in Hf, He, Hcol, Hv, Hm.
  rewrite app_nil_r in He.
  rewrite bind_eq, Hd. rewrite (bind_ret get _ w1 w1 w1) by done.
  rewrite Hv. destruct (visible (heap w this)) eqn:Hvis.
  - destruct (display_result this w1)
      as (w2 & Hdis & Hcont & He2 & _ & Hf2 & _ & Hc2 & Hm2 & _).
    assert (∀ c', occupant w2 c' = occupant w1 c') as Hsame
      by (intros c'; unfold occupant; by rewrite Hcont).
    exists w2. split_and!; try done.
    + by rewrite Hsame.
    + intros c' Hc'. rewrite Hsame. by apply Hoth.
    + by rewrite Hc2.
    + by rewrite Hm2.
    + by rewrite He2, He, Hcol.
  - exists w1. rewrite app_nil_r. by split_and!.
Qed.

Lemma matchingb_matching (w : World) (this : ref) (c : Coord) :
  matchingb w this c = true → matching w this c.
Proof.
  unfold matchingb, matching. destruct (occupant w c) as [r|]; [|done].
  simpl. intros H%bool_decide_eq_true. by exists r.
Qed.

(** The four cells of a formed square reach each other. *)
Lemma square_reach (w : World) (this : ref) (c : Coord) (p q : Coord) :
  square w this c = true →
  p ∈ [c; move 0 1 c; move 1 0 c; move 1 1 c] →
  q ∈ [c; move 0 1 c; move 1 0 c; move 1 1 c] →
  reach w this p q.
Proof.
  unfold square. intros Hsq Hp Hq.
  apply andb_prop in Hsq as [Hsq He%matchingb_matching].
  apply andb_prop in Hsq as [Hsq Hd%matchingb_matching].
  apply andb_prop in Hsq as [Ha%matchingb_matching Hb%matchingb_matching].
  assert (Hone : ∀ p q, adjacent p q → matching w this q → reach w this p q).
  { intros p0 q0 Hadj Hm. eapply reach_step; [apply reach_refl|done..]. }
  assert (Hab : reach w this c (move 0 1 c)) by (apply Hone; [by left|done]).
  assert (Hba : reach w this (move 0 1 c) c).
  { apply Hone; [|done]. right; left.
    destruct c; unfold move; simpl; f_equal; lia. }
  assert (Had : reach w this c (move 1 0 c))
    by (apply Hone; [right; right; by left|done]).
  assert (Hda : reach w this (move 1 0 c) c).
  { apply Hone; [|done]. right; right; right.
    destruct c; unfold move; simpl; f_equal; lia. }
  assert (Hbe : reach w this (move 0 1 c) (move 1 1 c)).
  { apply Hone; [|done]. right; right; left.
    destruct c; unfold move; simpl; f_equal; lia. }
  assert (Heb : reach w this (move 1 1 c) (move 0 1 c)).
  { apply Hone; [|done]. right; right; right.
    destruct c; unfold move; simpl; f_equal; lia. }
  assert (Hde : reach w this (move 1 0 c) (move 1 1 c)).
  { apply Hone; [|done]. left.
    destruct c; unfold move; simpl; f_equal; lia. }
  assert (Hed : reach w this (move 1 1 c) (move 1 0 c)).
  { apply Hone; [|done]. right; left.
    destruct c; unfold move; simpl; f_equal; lia. }
  rewrite !elem_of_cons in Hp, Hq.
  destruct Hp as [->|[->|[->|[->|Hp]]]]; [..|by apply elem_of_nil in Hp];
    (destruct Hq as [->|[->|[->|[->|Hq]]]]; [..|by apply elem_of_nil in Hq]);
    first [ apply reach_refl | assumption
          | by eapply reach_trans; [eassumption|] ].
Qed.

(** A formed square with the cell [c0] among its corners. *)
Lemma any_square_corner (w : World) (this : ref) (c0 : Coord) :
  any_square w this c0 = true →
  ∃ c, square w this c = true
       ∧ c0 ∈ [c; move 0 1 c; move 1 0 c; move 1 1 c].
Proof.
  unfold any_square. intros H.
  assert (Hback : ∀ dx dy, move dx dy (move (- dx) (- dy) c0) = c0).
  { intros. destruct c0. unfold move. simpl. f_equal; lia. }
  apply orb_prop in H as [H|H]; [apply orb_prop in H as [H|H];
    [apply orb_prop in H as [H|H]|]|]; eexists; (split; [exact H|]);
    rewrite !elem_of_cons.
  - by left.
  - right; right; left. symmetry. apply (Hback 1 0).
  - right; left. symmetry. apply (Hback 0 1).
  - right; right; right; left. symmetry. apply (Hback 1 1).
Qed.

(** Every cell reached from the block holds a destroyed block. *)
Lemma visiting_complete (w w' : World) (this : ref) (c0 c : Coord)
    (l : list ref) :
  consistent w → occupant w c0 = Some this →
  visiting w this this c0 (neighbours c0) w' l →
  reach w this c0 c → ∃ r, occupant w c = Some r ∧ r ∈ l.
Proof.
  intros Hcons Hthis (_ & _ & _ & _ & Hbl & _ & _ & Hclosed).
  induction 1 as [|c1 c2 _ IH Hadj (r2 & Hr2 & Hcol)]; [by exists this|].
  destruct IH as (r1 & Hr1 & Hr1l). exists r2. split; [done|].
  apply (Hclosed c1 r1 c2 r2); try done.
  intros ->. apply adjacent_neighbours.
  by rewrite (consistent_inj w c0 c1 this).
Qed.

(** X11. A clear never removes fewer than four blocks: in a consistent
    grid, for a placed block whose connected region lies on rows that
    have a row above and a row below, when a square is formed [clear]
    returns after [destroy] ran on at least four blocks, the four of
    the square among them. *)
Theorem clear_destroys_at_least_four (w : World) (this : ref) (c0 : Coord) :
  consistent w → occupant w c0 = Some this → interior w this c0 →
  any_square w this c0 = true →
  ∃ w' l, clear this w = Ret tt w'
    ∧ effects w' = effects w ++ (TweenShrink <$> l)
    ∧ (4 ≤ length l)%nat.
Proof.
  intros Hcons Hthis Hint Hsq.
  destruct (clear_flood w this c0 Hcons Hthis Hint Hsq) as (w' & l & Hclear & Hv).
  exists w', l. split; [done|]. split; [apply Hv|].
  destruct (any_square_corner w this c0 Hsq) as (c & Hc & Hc0).
  assert (Hcell : ∀ q, q ∈ [c; move 0 1 c; move 1 0 c; move 1 1 c] →
            ∃ r, occupant w q = Some r ∧ r ∈ l).
  { intros q Hq. eapply visiting_complete; try done.
    by eapply square_reach. }
  destruct (Hcell c) as (ra & Ha & Hal); [rewrite !elem_of_cons; tauto|].
  destruct (Hcell (move 0 1 c)) as (rb & Hb & Hbl); [rewrite !elem_of_cons; tauto|].
  destruct (Hcell (move 1 0 c)) as (rd & Hd & Hdl); [rewrite !elem_of_cons; tauto|].
  destruct (Hcell (move 1 1 c)) as (re & He & Hel); [rewrite !elem_of_cons; tauto|].
  assert (Hne : ∀ p q r r', p ≠ q → occupant w p = Some r →
            occupant w q = Some r' → r ≠ r').
  { intros p q r r' Hpq Hp Hq ->. apply Hpq. by eapply consistent_inj. }
  assert (Hdist : ∀ dx dy, (dx, dy) ≠ (0, 0) → move dx dy c ≠ c).
  { intros dx dy Hd0 Heq. destruct c as [x y]. unfold move in Heq.
    simpl in Heq. injection Heq as ? ?. apply Hd0. f_equal; lia. }
  assert (Hdist2 : ∀ dx dy dx' dy', (dx, dy) ≠ (dx', dy') →
            move dx dy c ≠ move dx' dy' c).
  { intros dx dy dx' dy' Hd0 Heq. destruct c as [x y]. unfold move in Heq.
    simpl in Heq. injection Heq as ? ?. apply Hd0. f_equal; lia. }
  assert (NoDup [ra; rb; rd; re]) as Hnd.
  { repeat (apply NoDup_cons; split); [..|apply NoDup_nil_2];
      rewrite ?not_elem_of_cons; split_and?; try apply not_elem_of_nil.
    - apply (Hne c (move 0 1 c)); [|done..]. intros E. by apply (Hdist 0 1).
    - apply (Hne c (move 1 0 c)); [|done..]. intros E. by apply (Hdist 1 0).
    - apply (Hne c (move 1 1 c)); [|done..]. intros E. by apply (Hdist 1 1).
    - by apply (Hne (move 0 1 c) (move 1 0 c)); [apply Hdist2|..].
    - by apply (Hne (move 0 1 c) (move 1 1 c)); [apply Hdist2|..].
    - by apply (Hne (move 1 0 c) (move 1 1 c)); [apply Hdist2|..]. }
  assert ([ra; rb; rd; re] ⊆ l) as Hsub.
  { intros r. rewrite !elem_of_cons. intros [->|[->|[->|[->|Hr]]]];
      [done..|by apply elem_of_nil in Hr]. }
  apply NoDup_submseteq in Hsub; [|done].
  by apply submseteq_length in Hsub.
Qed.

End BlockExtras.

(** ** The statements above on example grids *)

(** On [l_shape] a new block is dropped on the block of colour 9 at
    (3, 1) and destroyed. *)
Lemma drop_then_destroy_empties_the_cell_witness :
  Grid.has_row l_shape 1 ∧
  ∃ w2, (Block.drop 7%nat (mkCoord 3 1) false;; Block.destroy 7%nat) l_shape
        = Block.Ret tt w2
    ∧ Grid.occupant w2 (mkCoord 3 1) = None.
Proof.
  assert (H1 : Grid.has_row l_shape (cy (mkCoord 3 1)))
    by (split; vm_compute; [discriminate|reflexivity]).
  destruct (drop_then_destroy_empties_the_cell 7%nat (mkCoord 3 1) false
              l_shape H1) as (w2 & H2 & H3 & _).
  exact (conj H1 (ex_intro _ w2 (conj H2 H3))).
Defined.

(** On [l_shape] the block at (1, 1) is destroyed, the block at (2, 1)
    dropped in its place, and [destroy] run again on the first. *)
Lemma destroy_keeps_the_coordinate_witness :
  Block.coord (Block.heap l_shape 0%nat) = Some (mkCoord 1 1) ∧
  Grid.has_row l_shape 1 ∧
  ∃ w1, Block.destroy 0%nat l_shape = Block.Ret tt w1
    ∧ Block.coord (Block.heap w1 0%nat) = Some (mkCoord 1 1)
    ∧ ∃ w3, (Block.drop 1%nat (mkCoord 1 1) true;; Block.destroy 0%nat) w1
            = Block.Ret tt w3
        ∧ Grid.occupant w3 (mkCoord 1 1) = None
        ∧ Block.coord (Block.heap w3 1%nat) = Some (mkCoord 1 1).
Proof.
  assert (H1 : Block.coord (Block.heap l_shape 0%nat) = Some (mkCoord 1 1))
    by (vm_compute; reflexivity).
  assert (H2 : Grid.has_row l_shape (cy (mkCoord 1 1)))
    by (split; vm_compute; [discriminate|reflexivity]).
  assert (H3 : 1%nat ≠ 0%nat) by discriminate.
  destruct (destroy_keeps_the_coordinate 0%nat 1%nat (mkCoord 1 1) true
              l_shape H1 H2 H3) as (w1 & H4 & H5 & _ & _ & H6).
  exact (conj H1 (conj H2 (ex_intro _ w1 (conj H4 (conj H5 H6))))).
Defined.

Lemma operations_need_a_coordinate_witness :
  Block.coord (Block.heap undropped 0%nat) = None ∧
  Block.clear 0%nat undropped = Block.Throw TypeError undropped ∧
  Block.destroy 0%nat undropped
  = Block.Throw TypeError (Block.emit (Block.TweenShrink 0%nat) undropped).
Proof.
  assert (H1 : Block.coord (Block.heap undropped 0%nat) = None)
    by (vm_compute; reflexivity).
  destruct (operations_need_a_coordinate 0%nat undropped H1) as (H2 & H3 & _).
  exact (conj H1 (conj H2 H3)).
Defined.

Lemma clear_twice_is_clear_once_witness :
  Grid.consistent l_shape ∧
  Grid.occupant l_shape (mkCoord 1 1) = Some 0%nat ∧
  Grid.interior l_shape 0%nat (mkCoord 1 1) ∧
  ∃ w', Block.clear 0%nat l_shape = Block.Ret tt w'
        ∧ Block.clear 0%nat w' = Block.Ret tt w'.
Proof.
  assert (H1 : Grid.consistent l_shape) by apply l_shape_consistent.
  assert (H2 : Grid.occupant l_shape (mkCoord 1 1) = Some 0%nat)
    by (vm_compute; reflexivity).
  assert (H3 : Grid.interior l_shape 0%nat (mkCoord 1 1))
    by exact (l_shape_interior _ _ _ H2).
  exact (conj H1 (conj H2 (conj H3
           (clear_twice_is_clear_once l_shape 0%nat (mkCoord 1 1) H1 H2 H3)))).
Defined.

Lemma slide_there_and_back_witness :
  Block.coord (Block.heap l_shape 0%nat) = Some (mkCoord 1 1) ∧
  (Block.toLowerCase "Left", Block.toLowerCase "RIGHT") ∈ Block.opposites ∧
  ∃ w', (Block.slide 0%nat "Left";; Block.slide 0%nat "RIGHT") l_shape
        = Block.Ret tt w'
    ∧ Block.coord (Block.heap w' 0%nat) = Some (mkCoord 1 1).
Proof.
  assert (H1 : Block.coord (Block.heap l_shape 0%nat) = Some (mkCoord 1 1))
    by (vm_compute; reflexivity).
  assert (H2 : (Block.toLowerCase "Left", Block.toLowerCase "RIGHT")
               ∈ Block.opposites).
  { replace (Block.toLowerCase "Left") with "left" by (vm_compute; reflexivity).
    replace (Block.toLowerCase "RIGHT") with "right"
      by (vm_compute; reflexivity).
    unfold Block.opposites. rewrite !elem_of_cons. tauto. }
  destruct (slide_there_and_back 0%nat (mkCoord 1 1) "Left" "RIGHT" l_shape
              H1 H2) as (w' & H3 & H4 & _).
  exact (conj H1 (conj H2 (ex_intro _ w' (conj H3 H4)))).
Defined.

Lemma drop_animates_only_after_display_witness :
  Grid.has_row (Block.empty_world 3) 1 ∧
  ∃ w', (r ← Block.new scenario_config "top" 0 0 (Some 5);
         Block.drop r (mkCoord 1 1) false) (Block.empty_world 3)
        = Block.Ret tt w'
    ∧ Block.falling (Block.heap w' 0%nat) = false
    ∧ Block.effects w' = [].
Proof.
  assert (H1 : Grid.has_row (Block.empty_world 3) (cy (mkCoord 1 1)))
    by (split; vm_compute; [discriminate|reflexivity]).
  destruct (drop_animates_only_after_display scenario_config "top" 0 0
              (Some 5) (mkCoord 1 1) (Block.empty_world 3) H1)
    as [(w' & H2 & _ & H3 & H4) _].
  exact (conj H1 (ex_intro _ w' (conj H2 (conj H3 H4)))).
Defined.

Lemma positionAt_places_without_animation_witness :
  Grid.has_row one_block 2 ∧
  ∃ w', Block.positionAt 0%nat (mkCoord 2 2) one_block = Block.Ret tt w'
    ∧ Grid.occupant w' (mkCoord 2 2) = Some 0%nat
    ∧ Block.manualPosition (Block.heap w' 0%nat) = true.
Proof.
  assert (H1 : Grid.has_row one_block (cy (mkCoord 2 2)))
    by (split; vm_compute; [discriminate|reflexivity]).
  destruct (positionAt_places_without_animation 0%nat (mkCoord 2 2)
              one_block H1) as (w' & H2 & H3 & _ & _ & H4 & _).
  exact (conj H1 (ex_intro _ w' (conj H2 (conj H3 H4)))).
Defined.

Lemma clear_destroys_at_least_four_witness :
  Grid.consistent l_shape ∧
  Grid.occupant l_shape (mkCoord 1 1) = Some 0%nat ∧
  Grid.interior l_shape 0%nat (mkCoord 1 1) ∧
  Grid.any_square l_shape 0%nat (mkCoord 1 1) = true ∧
  ∃ w' l, Block.clear 0%nat l_shape = Block.Ret tt w'
    ∧ Block.effects w' = Block.effects l_shape ++ (Block.TweenShrink <$> l)
    ∧ (4 ≤ length l)%nat.
Proof.
  assert (H1 : Grid.consistent l_shape) by apply l_shape_consistent.
  assert (H2 : Grid.occupant l_shape (mkCoord 1 1) = Some 0%nat)
    by (vm_compute; reflexivity).
  assert (H3 : Grid.interior l_shape 0%nat (mkCoord 1 1))
    by exact (l_shape_interior _ _ _ H2).
  assert (H4 : Grid.any_square l_shape 0%nat (mkCoord 1 1) = true)
    by (vm_compute; reflexivity).
  exact (conj H1 (conj H2 (conj H3 (conj H4
           (clear_destroys_at_least_four l_shape 0%nat (mkCoord 1 1)
              H1 H2 H3 H4))))).
Defined.

(** * More on the score *)

Section ScoreExtras.
Import Score.
Variable config : Config.

(** The loop of [calcLevel] returns the highest index whose checkpoint
    the score has reached. *)
Lemma scan_highest (n : nat) (cur : num) :
  match scan config n cur with
  | Some k =>
      ∃ i cp, k = S i ∧ (i < n)%nat ∧ checkpoints config !! i = Some cp
        ∧ geb cur cp = true
        ∧ ∀ j cp', (i < j < n)%nat → checkpoints config !! j = Some cp' →
            geb cur cp' = false
  | None =>
      ∀ j cp', (j < n)%nat → checkpoints config !! j = Some cp' →
        geb cur cp' = false
  end.
Proof.
  induction n as [|n IH]; simpl; [intros; lia|].
  destruct (checkpoints config !! n) as [cp|] eqn:Hcp.
  - destruct (geb cur cp) eqn:Hge.
    + exists n, cp. split_and!; try done; [lia|]. intros; lia.
    + destruct (scan config n cur) as [k|].
      * destruct IH as (i & cp0 & -> & Hi & Hcp0 & Hge0 & Hhigh).
        exists i, cp0. split_and!; try done; [lia|].
        intros j cp' Hj Hcp'. destruct (decide (j = n)) as [->|]; [congruence|].
        apply (Hhigh j); [lia|done].
      * intros j cp' Hj Hcp'. destruct (decide (j = n)) as [->|]; [congruence|].
        apply (IH j); [lia|done].
  - destruct (scan config n cur) as [k|].
    + destruct IH as (i & cp0 & -> & Hi & Hcp0 & Hge0 & Hhigh).
      exists i, cp0. split_and!; try done; [lia|].
      intros j cp' Hj Hcp'. destruct (decide (j = n)) as [->|]; [congruence|].
      apply (Hhigh j); [lia|done].
    + intros j cp' Hj Hcp'. destruct (decide (j = n)) as [->|]; [congruence|].
      apply (IH j); [lia|done].
Qed.

(** X12. [calcLevel] returns one more than the highest index whose
    checkpoint the score has reached, whatever the order of the
    checkpoints, and the current level when the score has reached none
    of them (also when the score is [NaN]); it looks at the current
    level in no other case, so on a state whose level is above what the
    score gives it returns less than the level. *)
Theorem calcLevel_highest_checkpoint (s : t) :
  (∃ i cp, checkpoints config !! i = Some cp
     ∧ geb (current s) cp = true
     ∧ (∀ j cp', (i < j)%nat → checkpoints config !! j = Some cp' →
          geb (current s) cp' = false)
     ∧ calcLevel config s = S i)
  ∨ ((∀ j cp', checkpoints config !! j = Some cp' →
        geb (current s) cp' = false)
     ∧ calcLevel config s = level s).
Proof.
  unfold calcLevel.
  pose proof (scan_highest (length (checkpoints config)) (current s)) as H.
  destruct (scan config _ _) as [k|].
  - destruct H as (i & cp & -> & Hi & Hcp & Hge & Hhigh). left.
    exists i, cp. split_and!; try done.
    intros j cp' Hj Hcp'. apply (Hhigh j); [|done].
    apply lookup_lt_Some in Hcp'. lia.
  - right. split; [|done]. intros j cp' Hcp'. apply (H j); [|done].
    by apply lookup_lt_Some in Hcp'.
Qed.

(** X13. In any state, reached by [update] calls or not, [update] keeps
    the higher of the current level and the level that [calcLevel]
    gives for the new score: it never lowers the level, and it never
    raises it above the number of checkpoints, unless it was there
    already. *)
Theorem update_keeps_the_higher_level (c : N) (s : t) :
  let s' := state_of (update config c s) in
  level s' = Nat.max (level s) (calcLevel config (set_current (current s') s))
  ∧ (level s ≤ level s')%nat
  ∧ (level s' ≤ Nat.max (level s) (length (checkpoints config)))%nat.
Proof.
  cbv zeta. destruct (update_level config c s) as [Hc Hl].
  cbv zeta in Hc, Hl. rewrite Hc, Hl. split_and!; [reflexivity|lia|].
  unfold calcLevel. simpl.
  destruct (scan config _ _) as [k|] eqn:Hk; simpl; [|lia].
  apply scan_le in Hk. lia.
Qed.

(** Counting the checkpoints a score has reached. *)
Lemma reached_none (cps : list Z) (x : Z) :
  (∀ j cp, cps !! j = Some cp → ¬ cp ≤ x) →
  filter (λ cp, cp ≤ x) cps = [].
Proof.
  induction cps as [|cp cps IH]; intros H; [done|].
  rewrite filter_cons_False by apply (H 0%nat cp eq_refl).
  apply IH. intros j cp0 Hj. apply (H (S j) cp0 Hj).
Qed.

Lemma reached_prefix (cps : list Z) (x : Z) (i : nat) :
  (∀ j cp, cps !! j = Some cp → (cp ≤ x ↔ (j ≤ i)%nat)) →
  (i < length cps)%nat →
  length (filter (λ cp, cp ≤ x) cps) = S i.
Proof.
  revert i. induction cps as [|cp cps IH]; intros i H Hi; simpl in *; [lia|].
  pose proof (H 0%nat cp eq_refl) as H0.
  rewrite filter_cons_True by (apply H0; lia). simpl. f_equal.
  destruct i as [|i].
  - rewrite reached_none; [done|]. intros j cp0 Hj Hle.
    apply (H (S j) cp0 Hj) in Hle. lia.
  - apply IH; [|lia]. intros j cp0 Hj.
    rewrite (H (S j) cp0 Hj). lia.
Qed.

(** X14. When the checkpoints are in ascending order, the level that
    [calcLevel] gives for a score that has reached the first checkpoint
    is the number of checkpoints the score has reached. *)
Theorem calcLevel_counts_reached_checkpoints (s : t) (x : Z) :
  ascending (checkpoints config) →
  current s = Int x →
  (∃ cp, checkpoints config !! 0%nat = Some cp ∧ cp ≤ x) →
  calcLevel config s = length (filter (λ cp, cp ≤ x) (checkpoints config)).
Proof.
  intros Hsorted Hx (cp0 & Hcp0 & Hle0).
  unfold calcLevel.
  pose proof (scan_highest (length (checkpoints config)) (current s)) as H.
  destruct (scan config _ _) as [k|]; simpl.
  - destruct H as (i & cp & -> & Hi & Hcp & Hge & Hhigh).
    rewrite Hx in *. simpl in *. apply Z.leb_le in Hge.
    symmetry. apply reached_prefix; [|by eapply lookup_lt_Some].
    intros j cp' Hcp'. split.
    + intros Hle. destruct (decide (j ≤ i)%nat) as [|Hgt]; [done|].
      pose proof (lookup_lt_Some _ _ _ Hcp') as Hj.
      specialize (Hhigh j cp' ltac:(lia) Hcp').
      apply Z.leb_gt in Hhigh. lia.
    + intros Hji. destruct (decide (j = i)) as [->|Hne]; [by simplify_eq|].
      assert (cp' ≤ cp); [|lia].
      apply (Hsorted j i cp' cp); [lia|done..].
  - pose proof (lookup_lt_Some _ _ _ Hcp0) as H0.
    specialize (H 0%nat cp0 H0 Hcp0). rewrite Hx in H. simpl in H.
    apply Z.leb_gt in H. lia.
Qed.

Lemma update_NaN (c : N) (s : t) :
  points config !! level s = None ∨ current s = NaN →
  update config c s =
    Done (mk ("Level: " ++ pretty (level s + 1)%nat ++ newline ++ "Score: NaN")
             NaN (level s) (calls s)).
Proof.
  intros H. rewrite update_fields. cbv zeta.
  assert (add (current s) (Math_floor (Math_pow c (points config !! level s)))
          = NaN) as ->.
  { destruct H as [-> | ->]; [by destruct (current s)|done]. }
  unfold calcLevel. simpl. rewrite scan_NaN. simpl.
  by rewrite Nat.ltb_irrefl.
Qed.

(** X15. When the table of exponents has no entry for the current level,
    or the score is [NaN] already, [update] makes the score [NaN], shows
    it on the board, keeps the level and calls nobody; and from then on
    the score stays [NaN] and the level stays where it is, whatever is
    cleared. *)
Theorem score_NaN_is_final (c : N) (s : t) :
  points config !! level s = None ∨ current s = NaN →
  let s1 := state_of (update config c s) in
  update config c s = Done s1
  ∧ current s1 = NaN
  ∧ board s1 = ("Level: " ++ pretty (level s + 1)%nat ++ newline
                ++ "Score: NaN")%string
  ∧ ∀ cs, let s2 := updates config cs s1 in
      current s2 = NaN ∧ level s2 = level s ∧ calls s2 = calls s.
Proof.
  intros H. cbv zeta. rewrite (update_NaN c s H). simpl.
  split_and!; try done.
  intros cs. set (s1 := mk _ NaN (level s) (calls s)).
  assert (current s1 = NaN ∧ level s1 = level s ∧ calls s1 = calls s)
    as Hs1 by done.
  clearbody s1. revert s1 Hs1.
  induction cs as [|c' cs IH]; intros s1 (Hc & Hl & Hcalls); [done|].
  unfold updates in *. simpl. apply IH.
  rewrite (update_NaN c' s1) by (by right). simpl. by rewrite Hl.
Qed.

(** X16. When the recomputed level is higher and the configuration has
    no palette for it, [update] throws a [TypeError] in the middle of the
    transition: the level is already the new one, the generator and the
    music have been called, the background, the centre quad and the grid
    have not; and the transition is not run again, since no transition
    is pending in the state that is left. *)
Theorem transition_without_palette (c : N) (s : t) :
  let cur := add (current s)
               (Math_floor (Math_pow c (points config !! level s))) in
  let l := calcLevel config (set_current cur s) in
  (level s < l)%nat → color_available config !! l = None →
  ∃ s', update config c s = Failed TypeError s'
    ∧ current s' = cur ∧ level s' = l
    ∧ calls s' = calls s ++
        [SetLevel l; MusicPlay ("background" ++ pretty (l + 1)%nat)]
    ∧ settled config s'.
Proof.
  cbv zeta. intros Hlt Hpal.
  pose proof (settled_update config c s) as Hsettled. revert Hsettled.
  rewrite update_fields. cbv zeta.
  set (cur := add _ _). set (txt := (_ ++ _)%string).
  change (calcLevel config (mk txt cur (level s) (calls s)))
    with (calcLevel config (set_current cur s)).
  set (l := calcLevel _ _) in *.
  apply Nat.ltb_lt in Hlt. rewrite Hlt.
  unfold newLevel. simpl. rewrite Hpal. simpl. intros Hsettled.
  eexists. split; [reflexivity|]. simpl. split_and!; try done.
  by rewrite <- app_assoc.
Qed.

(** With a complete configuration the level stays within the
    checkpoints and the score is a number that is not negative. *)
Lemma complete_update (c : N) (s : t) :
  complete config →
  (level s ≤ length (checkpoints config))%nat →
  (∃ x, current s = Int x ∧ 0 ≤ x) →
  ∃ s', update config c s = Done s'
    ∧ (level s' ≤ length (checkpoints config))%nat
    ∧ ∃ x, current s' = Int x ∧ 0 ≤ x.
Proof.
  intros [Hpoints Hpal] Hlevel (x & Hx & Hx0).
  destruct (lookup_lt_is_Some_2 (points config) (level s)) as [e He]; [lia|].
  rewrite update_fields. cbv zeta. rewrite He, Hx. simpl.
  set (txt := (_ ++ _)%string).
  set (y := x + Z.of_N c ^ Z.of_nat e).
  assert (0 ≤ y) as Hy.
  { assert (0 ≤ Z.of_N c ^ Z.of_nat e) by (apply Z.pow_nonneg; lia).
    unfold y. lia. }
  set (l := calcLevel _ _).
  assert (l ≤ length (checkpoints config))%nat as Hl.
  { unfold l, calcLevel. simpl.
    destruct (scan config _ _) as [k|] eqn:Hk; simpl; [|lia].
    apply scan_le in Hk. lia. }
  destruct (Nat.ltb_spec (level s) l) as [Hlt|Hge].
  - destruct (Hpal l) as [palette Hpalette]; [lia|].
    rewrite newLevel_calls with (palette := palette) by done.
    eexists. split; [reflexivity|]. simpl. split; [done|]. by exists y.
  - eexists. split; [reflexivity|]. simpl. split; [done|]. by exists y.
Qed.

(** X17. With a configuration that has an exponent for every level from
    0 to the number of checkpoints and a palette for every level from 1
    on, every state of a game has a level within the checkpoints and a
    score that is a number, not negative, and [update] never throws. *)
Theorem complete_configuration_never_fails (s : t) (c : N) :
  complete config → reachable config s →
  (level s ≤ length (checkpoints config))%nat
  ∧ (∃ x, current s = Int x ∧ 0 ≤ x)
  ∧ ∃ s', update config c s = Done s'.
Proof.
  intros Hcomplete Hs.
  assert ((level s ≤ length (checkpoints config))%nat
          ∧ ∃ x, current s = Int x ∧ 0 ≤ x) as [Hl Hx].
  { induction Hs as [|s0 c0 _ [IHl IHx]].
    - simpl. split; [lia|]. by exists 0.
    - destruct (complete_update c0 s0 Hcomplete IHl IHx) as (s' & -> & ? & ?).
      done. }
  split_and!; try done.
  destruct (complete_update c s Hcomplete Hl Hx) as (s' & -> & _).
  by exists s'.
Qed.

End ScoreExtras.

Lemma calcLevel_counts_reached_checkpoints_witness :
  Score.ascending (checkpoints scenario_config) ∧
  Score.current scenario_state = Score.Int 110 ∧
  (∃ cp, checkpoints scenario_config !! 0%nat = Some cp ∧ cp ≤ 110) ∧
  Score.calcLevel scenario_config scenario_state =
    length (filter (λ cp, cp ≤ 110) (checkpoints scenario_config)).
Proof.
  assert (H1 : Score.ascending (checkpoints scenario_config)).
  { intros i j a b Hij Hi Hj.
    destruct i as [|[|[|i]]], j as [|[|[|j]]]; simpl in *;
      try discriminate; try lia; simplify_eq; lia. }
  assert (H2 : Score.current scenario_state = Score.Int 110) by reflexivity.
  assert (H3 : ∃ cp, checkpoints scenario_config !! 0%nat = Some cp ∧ cp ≤ 110)
    by (exists 100; split; [reflexivity|lia]).
  exact (conj H1 (conj H2 (conj H3
    (calcLevel_counts_reached_checkpoints scenario_config scenario_state 110
       H1 H2 H3)))).
Defined.

Lemma score_NaN_is_final_witness :
  (points short_config !! Score.level short_state = None
   ∨ Score.current short_state = Score.NaN) ∧
  Score.current (Score.state_of (Score.update short_config 5 short_state))
    = Score.NaN ∧
  Score.level (Score.updates short_config [7; 0; 1]%N
                 (Score.state_of (Score.update short_config 5 short_state)))
    = Score.level short_state.
Proof.
  assert (H : points short_config !! Score.level short_state = None
              ∨ Score.current short_state = Score.NaN) by (by left).
  destruct (score_NaN_is_final short_config 5 short_state H)
    as (_ & H1 & _ & H2).
  split; [exact H|]. split; [exact H1|]. apply (H2 [7; 0; 1]%N).
Defined.

Lemma transition_without_palette_witness :
  (Score.level Score.init <
   Score.calcLevel short_config
     (Score.set_current
        (Score.add (Score.current Score.init)
           (Score.Math_floor
              (Score.Math_pow 10
                 (points short_config !! Score.level Score.init))))
        Score.init))%nat ∧
  color_available short_config !! 1%nat = None ∧
  ∃ s', Score.update short_config 10 Score.init = Score.Failed TypeError s'
    ∧ Score.level s' = 1%nat
    ∧ Score.calls s' = [Score.SetLevel 1; Score.MusicPlay "background2"].
Proof.
  assert (H1 : (Score.level Score.init <
     Score.calcLevel short_config
       (Score.set_current
          (Score.add (Score.current Score.init)
             (Score.Math_floor
                (Score.Math_pow 10
                   (points short_config !! Score.level Score.init))))
          Score.init))%nat) by (vm_compute; lia).
  assert (H2 : color_available short_config !! 1%nat = None) by reflexivity.
  destruct (transition_without_palette short_config 10 Score.init H1 H2)
    as (s' & Hu & _ & Hl & Hc & _).
  split; [exact H1|]. split; [exact H2|].
  exists s'. split; [exact Hu|]. split; [exact Hl|exact Hc].
Defined.

Lemma complete_configuration_never_fails_witness :
  Score.complete scenario_config ∧
  Score.reachable scenario_config scenario_state ∧
  ∃ s', Score.update scenario_config 1000 scenario_state = Score.Done s'.
Proof.
  assert (H1 : Score.complete scenario_config).
  { split; [simpl; lia|]. intros l Hl. simpl in Hl.
    destruct l as [|[|[|[|l]]]]; try lia; by eexists. }
  assert (H2 : Score.reachable scenario_config scenario_state)
    by (do 2 apply Score.reachable_update; apply Score.reachable_init).
  destruct (complete_configuration_never_fails scenario_config scenario_state
              1000 H1 H2) as (_ & _ & H3).
  exact (conj H1 (conj H2 H3)).
Defined.

(** * The controls *)

Section ControlsFacts.
Import Controls.

(** What a call of [update] comes to. *)
Lemma update_cases (i : Input) (s : t) :
  let s1 := call HighlightPath s in
  update i s = s1
  ∨ (∃ op, is_rotation op = true ∧ rotating s = false ∧ update i s = rotate op s1)
  ∨ (∃ op, is_shift op = true ∧ shifting s = false ∧ fallingQuads i = 0%nat
           ∧ update i s = shift op s1)
  ∨ update i s = call PostMove (call GeneratorDrop s1).
Proof.
  cbv zeta. unfold update. simpl.
  destruct (negb (rotating s) && isDown i LEFT) eqn:E1.
  { apply andb_prop in E1 as [?%negb_true_iff _].
    right. left. by exists RotateCCW. }
  destruct (negb (rotating s) && isDown i RIGHT) eqn:E2.
  { apply andb_prop in E2 as [?%negb_true_iff _].
    right. left. by exists RotateCW. }
  assert (Hshift : ∀ k, negb (shifting s) && isDown i k
                        && (fallingQuads i =? 0)%nat = true →
                   shifting s = false ∧ fallingQuads i = 0%nat).
  { intros k [[?%negb_true_iff _]%andb_prop ?%Nat.eqb_eq]%andb_prop. done. }
  destruct (negb (shifting s) && isDown i W && _) eqn:E3.
  { destruct (Hshift _ E3). right. right. left. by exists SlideUp. }
  destruct (negb (shifting s) && isDown i S && _) eqn:E4.
  { destruct (Hshift _ E4). right. right. left. by exists SlideDown. }
  destruct (negb (shifting s) && isDown i A && _) eqn:E5.
  { destruct (Hshift _ E5). right. right. left. by exists SlideLeft. }
  destruct (negb (shifting s) && isDown i D && _) eqn:E6.
  { destruct (Hshift _ E6). right. right. left. by exists SlideRight. }
  destruct (isDown i SPACEBAR); [by right; right; right|by left].
Qed.

(** X18. Every call of [update] first calls [highlightPath] and then
    performs at most one intent: nothing, or one operation (a rotation,
    a shift or the generator's drop) followed by exactly one call of
    [postMove]. *)
Theorem update_performs_one_intent (i : Input) (s : t) :
  ∃ rest, calls (update i s) = calls s ++ HighlightPath :: rest
    ∧ (rest = [] ∨
       ∃ op, rest = [op; PostMove]
         ∧ (is_rotation op = true ∨ is_shift op = true ∨ op = GeneratorDrop)).
Proof.
  destruct (update_cases i s)
    as [->|[(op & Hop & _ & ->)|[(op & Hop & _ & _ & ->)| ->]]]; simpl.
  - exists []. split; [done|by left].
  - exists [op; PostMove]. rewrite <- !app_assoc. split; [done|].
    right. exists op. tauto.
  - exists [op; PostMove]. rewrite <- !app_assoc. split; [done|].
    right. exists op. tauto.
  - exists [GeneratorDrop; PostMove]. rewrite <- !app_assoc. split; [done|].
    right. exists GeneratorDrop. tauto.
Qed.

Lemma released_isDown_other (ks : list Key) (i : Input) (k : Key) :
  k ∉ ks → isDown (released ks i) k = isDown i k.
Proof. intros Hk. simpl. by rewrite decide_False. Qed.

(** X19. While [rotating] is set, [update] does what it would do with the
    two rotation keys released: it performs no rotation, sets no
    timeout for the rotation gate and leaves the gate closed, and a
    held rotation key does not keep a shift or a drop from being
    performed. *)
Theorem rotation_keys_ignored_while_rotating (i : Input) (s : t) :
  rotating s = true →
  update i s = update (released [LEFT; RIGHT] i) s
  ∧ rotating (update i s) = true
  ∧ Forall (λ c, is_rotation c = false) (since s (update i s)).
Proof.
  intros Hr. split_and!.
  - unfold update. simpl. by rewrite Hr.
  - destruct (update_cases i s)
      as [->|[(op & _ & ? & _)|[(op & _ & _ & _ & ->)| ->]]];
      simpl; congruence.
  - unfold since.
    destruct (update_cases i s)
      as [->|[(op & _ & ? & _)|[(op & Hop & _ & _ & ->)| ->]]];
      [|congruence|..]; simpl; rewrite <- ?app_assoc, drop_app_length;
      repeat constructor. by destruct op.
Qed.

(** X20. While [shifting] is set, or while a piece is falling, [update]
    does what it would do with the four shift keys released: it performs
    no shift and leaves the shift gate as it is. *)
Theorem shift_keys_ignored_while_shifting_or_falling (i : Input) (s : t) :
  shifting s = true ∨ fallingQuads i ≠ 0%nat →
  update i s = update (released [W; S; A; D] i) s
  ∧ shifting (update i s) = shifting s
  ∧ Forall (λ c, is_shift c = false) (since s (update i s)).
Proof.
  intros Hgate.
  assert (Hk : ∀ k, negb (shifting s) && isDown i k
                    && (fallingQuads i =? 0)%nat = false).
  { intros k. destruct Hgate as [->|Hf]; [done|].
    apply Nat.eqb_neq in Hf. rewrite Hf. by rewrite andb_false_r. }
  split_and!.
  - unfold update. simpl. rewrite !Hk. by rewrite !andb_false_r.
  - destruct (update_cases i s)
      as [->|[(op & _ & _ & ->)|[(op & _ & Hs & Hf & _)| ->]]];
      simpl; try done.
    destruct Hgate; congruence.
  - unfold since.
    destruct (update_cases i s)
      as [->|[(op & Hop & _ & ->)|[(op & _ & Hs & Hf & _)| ->]]];
      [| |destruct Hgate; congruence|]; simpl;
      rewrite <- ?app_assoc, drop_app_length; repeat constructor.
    by destruct op.
Qed.

(** The calls of one frame, with what they do to the gates. *)
Lemma update_since (i : Input) (s : t) :
  ∃ new, calls (update i s) = calls s ++ new
    ∧ (length (filter (λ c, is_rotation c = true) new) ≤ 1)%nat
    ∧ (length (filter (λ c, is_shift c = true) new) ≤ 1)%nat
    ∧ (rotating s = true → filter (λ c, is_rotation c = true) new = [])
    ∧ (shifting s = true → filter (λ c, is_shift c = true) new = [])
    ∧ (filter (λ c, is_rotation c = true) new ≠ [] → rotating (update i s) = true)
    ∧ (filter (λ c, is_shift c = true) new ≠ [] → shifting (update i s) = true)
    ∧ (rotating s = true → rotating (update i s) = true)
    ∧ (shifting s = true → shifting (update i s) = true).
Proof.
  destruct (update_cases i s)
    as [->|[(op & Hop & Hr & ->)|[(op & Hop & Hs & _ & ->)| ->]]]; simpl.
  - exists [HighlightPath]. split_and!; try done; simpl; lia.
  - exists [HighlightPath; op; PostMove]. rewrite <- !app_assoc.
    destruct op; try discriminate; simpl;
      split_and!; try done; try (intros; congruence); lia.
  - exists [HighlightPath; op; PostMove]. rewrite <- !app_assoc.
    destruct op; try discriminate; simpl;
      split_and!; try done; try (intros; congruence); lia.
  - exists [HighlightPath; GeneratorDrop; PostMove]. rewrite <- !app_assoc.
    split_and!; try done; simpl; lia.
Qed.

Lemma frames_since (inputs : list Input) (s : t) :
  ∃ new, calls (frames inputs s) = calls s ++ new
    ∧ (length (filter (λ c, is_rotation c = true) new) ≤ 1)%nat
    ∧ (length (filter (λ c, is_shift c = true) new) ≤ 1)%nat
    ∧ (rotating s = true → filter (λ c, is_rotation c = true) new = [])
    ∧ (shifting s = true → filter (λ c, is_shift c = true) new = []).
Proof.
  revert s. induction inputs as [|i inputs IH]; intros s.
  { exists []. rewrite app_nil_r. split_and!; try done; simpl; lia. }
  destruct (update_since i s)
    as (n1 & H1 & Hr1 & Hs1 & Hr0 & Hs0 & Hrset & Hsset & Hrkeep & Hskeep).
  destruct (IH (update i s)) as (n2 & H2 & Hr2 & Hs2 & Hr2' & Hs2').
  exists (n1 ++ n2). unfold frames in *. simpl.
  rewrite H2, H1, <- app_assoc, !filter_app, !length_app.
  split_and!; [done| | | |].
  - destruct (filter _ n1) eqn:E; [simpl; lia|].
    rewrite Hr2'; [simpl in *; lia|]. apply Hrset; first [done|by rewrite E].
  - destruct (filter (λ c, is_shift c = true) n1) eqn:E; [simpl; lia|].
    rewrite Hs2'; [simpl in *; lia|]. apply Hsset; first [done|by rewrite E].
  - intros Hr. rewrite Hr0, Hr2'; auto.
  - intros Hs. rewrite Hs0, Hs2'; auto.
Qed.

(** X21. However many frames are polled before a timeout runs, and
    whatever keys are held in them, at most one rotation and at most one
    shift are performed; none at all for a gate that was closed
    already. *)
Theorem one_rotation_and_one_shift_between_timeouts
    (inputs : list Input) (s : t) :
  let new := since s (frames inputs s) in
  (length (filter (λ c, is_rotation c = true) new) ≤ 1)%nat
  ∧ (length (filter (λ c, is_shift c = true) new) ≤ 1)%nat
  ∧ (rotating s = true → Forall (λ c, is_rotation c = false) new)
  ∧ (shifting s = true → Forall (λ c, is_shift c = false) new).
Proof.
  cbv zeta. destruct (frames_since inputs s) as (new & H & Hr & Hs & Hr0 & Hs0).
  unfold since. rewrite H, drop_app_length.
  assert (Hnone : ∀ (f : Call → bool) (l : list Call),
            filter (λ c, f c = true) l = [] → Forall (λ c, f c = false) l).
  { intros f l Hl. apply Forall_forall. intros c Hc.
    destruct (f c) eqn:E; [|done].
    assert (c ∈ filter (λ c, f c = true) l) as Hin
      by (apply list_elem_of_filter; done).
    rewrite Hl in Hin. by apply elem_of_nil in Hin. }
  split_and!; auto.
Qed.

Lemma gates_timed_update (i : Input) (s : t) :
  gates_timed s → gates_timed (update i s).
Proof.
  intros (Hr & Hs & Hnd).
  destruct (update_cases i s)
    as [->|[(op & _ & Hr0 & ->)|[(op & _ & Hs0 & _ & ->)| ->]]];
    unfold gates_timed; simpl; try done.
  - assert (ResetRotating ∉ timers s) by (rewrite <- Hr; congruence).
    split_and!.
    + split; [intros _; apply elem_of_app; right; apply list_elem_of_here|done].
    + rewrite Hs, elem_of_app, list_elem_of_singleton.
      split; [tauto|intros [?|?]; [done|discriminate]].
    + apply NoDup_app. split_and!; [done| |apply NoDup_singleton].
      intros x Hx ->%list_elem_of_singleton. done.
  - assert (ResetShifting ∉ timers s) by (rewrite <- Hs; congruence).
    split_and!.
    + rewrite Hr, elem_of_app, list_elem_of_singleton.
      split; [tauto|intros [?|?]; [done|discriminate]].
    + split; [intros _; apply elem_of_app; right; apply list_elem_of_here|done].
    + apply NoDup_app. split_and!; [done| |apply NoDup_singleton].
      intros x Hx ->%list_elem_of_singleton. done.
Qed.

Lemma gates_timed_fire (s : t) : gates_timed s → gates_timed (fire s).
Proof.
  intros H. pose proof H as (Hr & Hs & Hnd). unfold fire.
  destruct (timers s) as [|[] ts] eqn:E; [exact H|..];
    apply NoDup_cons in Hnd as [Hhd Hnd]; unfold gates_timed; simpl;
    rewrite elem_of_cons in Hr; rewrite elem_of_cons in Hs; split_and!;
    try done; split; try done; intros; try tauto; try congruence;
    naive_solver.
Qed.

Lemma gates_timed_run (es : list event) (s : t) :
  gates_timed s → gates_timed (run es s).
Proof.
  revert s. induction es as [|e es IH]; intros s Hs; [done|].
  unfold run in *. simpl. apply IH.
  destruct e; [by apply gates_timed_update|by apply gates_timed_fire].
Qed.

Lemma gates_timed_init : gates_timed init.
Proof.
  unfold gates_timed. simpl. split_and!; [| |apply NoDup_nil_2];
    split; try done; by intros ?%elem_of_nil.
Qed.

Lemma fire_all (s : t) :
  gates_timed s →
  let s' := run (replicate (length (timers s)) Timeout) s in
  rotating s' = false ∧ shifting s' = false ∧ timers s' = []
  ∧ calls s' = calls s.
Proof.
  cbv zeta. remember (length (timers s)) as n eqn:Hn.
  revert s Hn. induction n as [|n IH]; intros s Hn Hs.
  - destruct (timers s) eqn:E; [|done]. simpl.
    destruct Hs as (Hr & Hs & _). rewrite E in Hr, Hs.
    split_and!; try done.
    + destruct (rotating s); [|done]. by apply proj1, elem_of_nil in Hr.
    + destruct (shifting s); [|done]. by apply proj1, elem_of_nil in Hs.
  - unfold run in *. simpl.
    assert (length (timers (fire s)) = n ∧ calls (fire s) = calls s) as [Hl Hc].
    { unfold fire. destruct (timers s) as [|[] ts]; simpl in *; split; congruence. }
    destruct (IH (fire s)) as (? & ? & ? & ?); [done|by apply gates_timed_fire|].
    split_and!; congruence.
Qed.

(** X22. In every state that frames and timeouts lead to from the
    initial one, a gate is closed exactly while its timeout is pending
    and at most one timeout of each kind is pending; so a closed gate
    always opens again: once the pending timeouts, at most two, have
    run, both gates are open, with no call made in between. *)
Theorem gates_reopen (es : list event) :
  let s := run es init in
  gates_timed s
  ∧ (length (timers s) ≤ 2)%nat
  ∧ let s' := run (replicate (length (timers s)) Timeout) s in
    rotating s' = false ∧ shifting s' = false ∧ timers s' = []
    ∧ calls s' = calls s.
Proof.
  cbv zeta.
  pose proof (gates_timed_run es init gates_timed_init) as Hs.
  split; [done|]. split; [|by apply fire_all].
  destruct Hs as (_ & _ & Hnd).
  assert (timers (run es init) ⊆ [ResetRotating; ResetShifting]) as Hsub.
  { intros []; rewrite !elem_of_cons; tauto. }
  apply NoDup_submseteq in Hsub; [|done].
  by apply submseteq_length in Hsub.
Qed.

(** X23. The drop has no gate and the lowest priority: with the space
    bar down every frame performs an intent, and with no rotation or
    shift accepted before it (here: the other keys are up) that intent
    is the generator's drop, whatever the gates and however many pieces
    are falling. *)
Theorem space_bar_always_acts (i : Input) (s : t) :
  isDown i SPACEBAR = true →
  (∃ op, since s (update i s) = [HighlightPath; op; PostMove])
  ∧ ((∀ k, k ≠ SPACEBAR → isDown i k = false) →
     since s (update i s) = [HighlightPath; GeneratorDrop; PostMove]).
Proof.
  intros Hsp. split.
  - unfold since.
    destruct (update_cases i s)
      as [Hu|[(op & _ & _ & ->)|[(op & _ & _ & _ & ->)| ->]]];
      simpl; rewrite <- ?app_assoc, ?drop_app_length; eauto.
    exfalso. revert Hu. unfold update. simpl. rewrite Hsp.
    repeat (case_match; [intros Hu; apply (f_equal calls) in Hu; simpl in Hu;
      rewrite <- ?app_assoc in Hu; apply app_inv_head in Hu; discriminate|]).
    intros Hu. apply (f_equal calls) in Hu. simpl in Hu.
    rewrite <- ?app_assoc in Hu. apply app_inv_head in Hu. discriminate.
  - intros Hup. unfold since, update. simpl.
    rewrite !Hup by done. rewrite Hsp, !andb_false_r. simpl.
    by rewrite <- !app_assoc, drop_app_length.
Qed.

End ControlsFacts.

Lemma rotation_keys_ignored_while_rotating_witness :
  Controls.rotating (Controls.update left_and_w Controls.init) = true ∧
  Controls.update left_and_w (Controls.update left_and_w Controls.init) =
    Controls.update (Controls.released [Controls.LEFT; Controls.RIGHT] left_and_w)
      (Controls.update left_and_w Controls.init) ∧
  Controls.since (Controls.update left_and_w Controls.init)
    (Controls.update left_and_w (Controls.update left_and_w Controls.init))
  = [Controls.HighlightPath; Controls.SlideUp; Controls.PostMove].
Proof.
  assert (H : Controls.rotating (Controls.update left_and_w Controls.init) = true)
    by reflexivity.
  destruct (rotation_keys_ignored_while_rotating left_and_w _ H) as (H1 & _ & _).
  split; [exact H|]. split; [exact H1|reflexivity].
Defined.

Lemma shift_keys_ignored_while_shifting_or_falling_witness :
  (Controls.shifting Controls.init = true
   ∨ Controls.fallingQuads space_and_left ≠ 0%nat) ∧
  Controls.update space_and_left Controls.init =
    Controls.update
      (Controls.released [Controls.W; Controls.S; Controls.A; Controls.D]
         space_and_left) Controls.init.
Proof.
  assert (H : Controls.shifting Controls.init = true
              ∨ Controls.fallingQuads space_and_left ≠ 0%nat)
    by (right; discriminate).
  destruct (shift_keys_ignored_while_shifting_or_falling space_and_left _ H)
    as (H1 & _ & _).
  exact (conj H H1).
Defined.

Lemma space_bar_always_acts_witness :
  Controls.isDown space_and_left Controls.SPACEBAR = true ∧
  ∃ op, Controls.since Controls.init (Controls.update space_and_left Controls.init)
        = [Controls.HighlightPath; op; Controls.PostMove].
Proof.
  split; [reflexivity|].
  exact (proj1 (space_bar_always_acts space_and_left Controls.init eq_refl)).
Defined.
